(** * go-revolver: latency-ring routing table and pairing handshake

    A shallow embedding of [routingtable/rings.go] (the ring-based routing
    table) and of [pair.go] (the pairing service of the p2p client), with
    the properties of the natural-language specification stated over it.

    Conventions of the embedding:
    - [peer.ID] is a Go string type: [PeerID := string];
    - [time.Duration] is an [int64] count of nanoseconds: [Z];
    - [float64] is IEEE 754 binary64, through the Standard Library's
      executable [spec_float] operations at precision 53;
    - a Go [map[peer.ID]bool] is a [gmap PeerID bool], read with the zero
      value [false] for absent keys;
    - a run-time panic is the [Panic] outcome of the [result] monad, and
      [Blocked] is a channel operation that waits for a partner forever;
    - the draws of [rand.Perm] and the iteration order of a map [range] are
      inputs of the functions that consume them;
    - the mutex of the table is not modelled: every method body is one
      atomic step of a sequential execution. *)

From Stdlib Require Import ZArith List Lia.
From Stdlib Require Import Floats.SpecFloat.
From stdpp Require Import base option list gmap strings.

Local Open Scope Z_scope.

(** ** Outcomes of Go code that may panic *)

Inductive result (A : Type) : Type :=
  | Ok (a : A)
  | Panic (msg : string)
  | Blocked.
Arguments Ok {A} a.
Arguments Panic {A} msg.
Arguments Blocked {A}.

#[global] Instance result_ret : MRet result := fun A a => Ok a.
#[global] Instance result_bind : MBind result := fun A B f r =>
  match r with
  | Ok a => f a
  | Panic msg => Panic msg
  | Blocked => Blocked
  end.

Definition is_Ok {A} (r : result A) : Prop := ∃ a, r = Ok a.

(** ** Basic types *)

Abbreviation PeerID := string (only parsing).
Abbreviation Duration := Z (only parsing).

Definition Nanosecond : Duration := 1.
Definition Millisecond : Duration := 1000000.
Definition Second : Duration := 1000000000.

(** [m[pid]] on a [map[peer.ID]bool]: the zero value for an absent key. *)
Definition map_get (m : gmap PeerID bool) (pid : PeerID) : bool :=
  default false (m !! pid).

(** ** float64 arithmetic used by the constructor *)

Module Float64.

Definition prec : Z := 53.
Definition emax : Z := 1024.

Definition float64 := spec_float.

(** [float64(k)] for an [int64] k: round to nearest, ties to even. *)
Definition of_int64 (k : Z) : float64 := binary_normalize prec emax k 0 false.

Definition mul (x y : float64) : float64 := SFmul prec emax x y.

Definition min_int64 : Z := - 2 ^ 63.
Definition max_int64 : Z := 2 ^ 63 - 1.

(** [int64(f)]: the fraction is discarded (truncation towards zero).  The
    language leaves the result open when the value does not fit; the amd64
    conversion instruction then yields the smallest [int64]. *)
Definition to_int64 (f : float64) : Z :=
  match f with
  | S754_zero _ => 0
  | S754_finite s m e =>
      let mag := if 0 <=? e then Z.pos m * 2 ^ e else Z.pos m / 2 ^ (- e) in
      let v := if s then - mag else mag in
      if (min_int64 <=? v) && (v <=? max_int64) then v else min_int64
  | S754_infinity _ | S754_nan => min_int64
  end.

End Float64.

(** ** Rings *)

(** A ring stores a list of peers within a certain latency range.  The
    field is the visible part of the Go slice, [r.peers[0:len]]. *)
Record ring := mkRing { ring_peers : list PeerID }.

Definition emptyRing : ring := mkRing [].

(** [r.peers = append(r.peers, pid)] *)
Definition ring_Add (pid : PeerID) (r : ring) : ring :=
  mkRing (ring_peers r ++ [pid]).

(** The loop of [ring.Remove] runs over the slice as it was when the loop
    started: [n] iterations, each reading index [i] of the backing array.
    Meanwhile [r.peers] is reassigned; the loop state is the backing array
    (its first [n] cells) and the current length of [r.peers]. *)
Definition remove_state : Type := list PeerID * nat.

(** [append(r.peers[:i], r.peers[i+1:]...)] writes in place: the cells
    [i+1 .. len-1] move one to the left, the cell [len-1] keeps its old
    content, and the new slice is one shorter.  [r.peers[i+1:]] panics when
    [i+1] exceeds the current length. *)
Definition remove_at (i : nat) (st : remove_state) : result remove_state :=
  let '(arr, len) := st in
  if decide (i + 1 ≤ len)%nat
  then Ok (take i arr ++ drop (i + 1) (take len arr) ++ drop (len - 1) arr,
           (len - 1)%nat)
  else Panic "slice bounds out of range".

Definition remove_iter (pid : PeerID) (st : result remove_state) (i : nat)
  : result remove_state :=
  st ← st;
  match st.1 !! i with
  | Some peer => if decide (peer = pid) then remove_at i st else Ok st
  | None => Panic "index out of range"
  end.

Definition ring_Remove (pid : PeerID) (r : ring) : result ring :=
  let n := length (ring_peers r) in
  st ← foldl (remove_iter pid) (Ok (ring_peers r, n)) (seq 0 n);
  Ok (mkRing (take st.2 st.1)).

(** The walk shared by [ring.Recommend] and [sample]:
    [for i := 0; i < count && i < len(perm); i++], taking [peers[perm[i]]]
    when it is not excluded. *)
Definition walk_perm (peers : list PeerID) (exclude : gmap PeerID bool)
    (acc : result (list PeerID)) (j : nat) : result (list PeerID) :=
  acc ← acc;
  match peers !! j with
  | Some pid => if map_get exclude pid then Ok acc else Ok (acc ++ [pid])
  | None => Panic "index out of range"
  end.

Definition pick (perm : list nat) (count : Z) (exclude : gmap PeerID bool)
    (peers : list PeerID) : result (list PeerID) :=
  foldl (walk_perm peers exclude) (Ok []) (take (Z.to_nat count) perm).

(** Return [count] random peers in the ring, except for those in the
    [exclude] list.  [perm] is the draw of [rand.Perm(len(r.peers))]. *)
Definition ring_Recommend (perm : list nat) (count : Z)
    (exclude : gmap PeerID bool) (r : ring) : result (list PeerID) :=
  pick perm count exclude (ring_peers r).

(** What [rand.Perm(n)] may return. *)
Definition is_perm (n : nat) (perm : list nat) : Prop := perm ≡ₚ seq 0 n.

(** ** The latency estimator *)

(** [peerstore.Metrics] is an interface of the libp2p peer store; the table
    only records samples and reads the smoothed estimate. *)
Class Metrics (M : Type) := {
  NewMetrics : M;
  RecordLatency : M → PeerID → Duration → M;
  LatencyEWMA : M → PeerID → Duration;
}.

(** ** Channels used as signals *)

(** [chan struct{}] on which nothing is ever sent: all that matters is
    whether it has been closed. *)
Record chan := mkChan { chan_closed : bool }.

Definition make_chan : chan := mkChan false.

(** [close(c)] never waits; closing a closed channel panics. *)
Definition close (c : chan) : result chan :=
  if chan_closed c then Panic "close of closed channel" else Ok (mkChan true).

(** [<-c]: a closed channel delivers the zero value at once; an open one on
    which nobody sends never delivers. *)
Definition recv (c : chan) : result unit :=
  if chan_closed c then Ok () else Blocked.

(** ** Configuration *)

Abbreviation error := string (only parsing).

(** LatencyProbeFn is a function that accepts a peer ID and returns a
    latency ([inl]) or an error ([inr]). *)
Definition LatencyProbeFn : Type := PeerID → Duration + error.

Record RingsConfig := mkRingsConfig {
  RingsCount : Z;
  BaseLatency : Duration;
  LatencyGrowthFactor : Float64.float64;
  SampleSize : Z;
  SamplePeriod : Duration;
  LatencyProbFn : LatencyProbeFn;
}.

Definition NewDefaultRingsConfig (probe : LatencyProbeFn) : RingsConfig :=
  {| RingsCount := 8;
     BaseLatency := 8 * Millisecond;
     LatencyGrowthFactor := Float64.of_int64 2;
     SampleSize := 16;
     SamplePeriod := 30 * Second;
     LatencyProbFn := probe |}.

(** [k = time.Duration(float64(k) * conf.LatencyGrowthFactor)] *)
Definition grow (g : Float64.float64) (k : Duration) : Duration :=
  Float64.to_int64 (Float64.mul (Float64.of_int64 k) g).

(** The body of [for i := 1; i < conf.RingsCount; i++], run [n] times from
    the current [k]. *)
Fixpoint growLatRanges (n : nat) (g : Float64.float64) (k : Duration)
  : list Duration :=
  match n with
  | O => []
  | S n' => k :: growLatRanges n' g (grow g k)
  end.

Definition newLatRanges (conf : RingsConfig) : list Duration :=
  0 :: growLatRanges (Z.to_nat (RingsCount conf - 1))
         (LatencyGrowthFactor conf) (BaseLatency conf).

(** [for i := 0; i < conf.RingsCount; i++ { rings = append(rings, &ring{}) }] *)
Definition newRings (conf : RingsConfig) : list ring :=
  replicate (Z.to_nat (RingsCount conf)) emptyRing.

(** ** The routing table *)

Section RoutingTable.

Context {M : Type} `{Metrics M}.

(** ringsRoutingTable is a RoutingTable based on latency rings. *)
Record ringsRoutingTable := mkTable {
  conf : RingsConfig;
  (* A set of known peers *)
  peers : gmap PeerID bool;
  (* The rings *)
  rings : list ring;
  (* The latency range of the rings *)
  latRanges : list Duration;
  (* For storing latency info *)
  metrics : M;
  (* Shutdown signal *)
  shutdown : chan;
}.

(** An order in which [for pid := range m] may visit the keys of [m]. *)
Definition is_range_of (m : gmap PeerID bool) (order : list PeerID) : Prop :=
  order ≡ₚ (map_to_list m).*1.

(** The table that [NewRingsRoutingTable] returns; the goroutine it starts
    is [background] below. *)
Definition NewRingsRoutingTable (c : RingsConfig) : ringsRoutingTable :=
  {| conf := c;
     rings := newRings c;
     peers := ∅;
     metrics := NewMetrics;
     latRanges := newLatRanges c;
     shutdown := make_chan |}.

(** The [for pid := range sample] loop of [refreshLatency]: a failed probe
    is logged, a successful one recorded. *)
Definition probe_and_record (probe : LatencyProbeFn) (m : M) (pid : PeerID) : M :=
  match probe pid with
  | inl latency => RecordLatency m pid latency
  | inr _ => m
  end.

Definition sample_pids (pids : list PeerID) (acc : result (list PeerID))
    (j : nat) : result (list PeerID) :=
  acc ← acc;
  match pids !! j with
  | Some pid => Ok (acc ++ [pid])
  | None => Panic "index out of range"
  end.

(** refreshLatency picks a random subset of peers and refresh their
    latency information.  [order] is the order of the map range, [perm]
    the draw of [rand.Perm(peerCount)]. *)
Definition refreshLatency (order : list PeerID) (perm : list nat)
    (r : ringsRoutingTable) : result ringsRoutingTable :=
  let pids := order in
  smp ← foldl (sample_pids pids) (Ok [])
        (take (Z.to_nat (SampleSize (conf r))) perm);
  Ok {| conf := conf r; peers := peers r; rings := rings r;
        latRanges := latRanges r;
        metrics := foldl (probe_and_record (LatencyProbFn (conf r)))
                     (metrics r) smp;
        shutdown := shutdown r |}.

(** [for i := len(r.latRanges) - 1; i >= 0; i--]: the indices below [i]
    are scanned downwards for the first range bound that the latency
    exceeds. *)
Fixpoint find_ring (latency : Duration) (lr : list Duration) (i : nat)
  : option nat :=
  match i with
  | O => None
  | S i' =>
      match lr !! i' with
      | Some bound =>
          if bound <? latency then Some i' else find_ring latency lr i'
      | None => None
      end
  end.

(** One round of [for pid := range r.peers] in [populateRings]. *)
Definition place (m : M) (lr : list Duration) (rs : result (list ring))
    (pid : PeerID) : result (list ring) :=
  rs ← rs;
  match find_ring (LatencyEWMA m pid) lr (length lr) with
  | Some i =>
      match rs !! i with
      | Some rg => Ok (<[i := ring_Add pid rg]> rs)
      | None => Panic "index out of range"
      end
  | None => Ok rs
  end.

(** populateRings puts peers into the rings. *)
Definition populateRings (order : list PeerID) (r : ringsRoutingTable)
  : result ringsRoutingTable :=
  rs ← foldl (place (metrics r) (latRanges r)) (Ok (newRings (conf r))) order;
  Ok {| conf := conf r; peers := peers r; rings := rs;
        latRanges := latRanges r; metrics := metrics r;
        shutdown := shutdown r |}.

(** [Add]: do nothing if we already know about this peer; otherwise ping
    it and record latency info. *)
Definition Add (pid : PeerID) (r : ringsRoutingTable) : ringsRoutingTable :=
  if map_get (peers r) pid then r
  else
    match LatencyProbFn (conf r) pid with
    | inr _ => r
    | inl latency =>
        {| conf := conf r;
           peers := <[pid := true]> (peers r);
           rings := rings r;
           latRanges := latRanges r;
           metrics := RecordLatency (metrics r) pid latency;
           shutdown := shutdown r |}
    end.

(** [for _, ring := range r.rings { ring.Remove(pid) }] *)
Fixpoint remove_from_rings (pid : PeerID) (rs : list ring)
  : result (list ring) :=
  match rs with
  | [] => Ok []
  | rg :: rest =>
      rg' ← ring_Remove pid rg;
      rest' ← remove_from_rings pid rest;
      Ok (rg' :: rest')
  end.

Definition Remove (pid : PeerID) (r : ringsRoutingTable)
  : result ringsRoutingTable :=
  rs ← remove_from_rings pid (rings r);
  Ok {| conf := conf r; peers := delete pid (peers r); rings := rs;
        latRanges := latRanges r; metrics := metrics r;
        shutdown := shutdown r |}.

(** Return a random sample of peers, except those in the [exclude] set.
    [order] is the slice that the loop [for pid := range r.peers] builds, a
    range of [peers r]; [perm] is the draw of [rand.Perm(len(peers))]. *)
Definition sample (order : list PeerID) (perm : list nat) (count : Z)
    (exclude : gmap PeerID bool) (r : ringsRoutingTable)
  : result (list PeerID) :=
  pick perm count exclude order.

(** [exclude[pid] = true] for every element of a list. *)
Definition exclude_all (exclude : gmap PeerID bool) (l : list PeerID)
  : gmap PeerID bool :=
  foldl (fun e pid => <[pid := true]> e) exclude l.

(** [nodesFromRing := make([]int, r.conf.RingsCount)] *)
Definition make_ints (n : Z) : result (list Z) :=
  if n <? 0 then Panic "makeslice: len out of range"
  else Ok (replicate (Z.to_nat n) 0).

(** One round of [for i := 0; i < count; i++] over the ring index [j]. *)
Definition round_robin (n : Z) (st : result (list Z * Z)) (_ : nat)
  : result (list Z * Z) :=
  '(nodes, j) ← st;
  match nodes !! Z.to_nat j with
  | Some c =>
      let j' := j + 1 in
      Ok (<[Z.to_nat j := c + 1]> nodes, if n <=? j' then 0 else j')
  | None => Panic "index out of range"
  end.

(** One round of [for i, count := range nodesFromRing]; [rnd i] is the
    permutation drawn inside the call on ring [i]. *)
Definition from_ring (rnd : nat → list nat) (exclude : gmap PeerID bool)
    (rs : list ring) (acc : result (list PeerID)) (ic : nat * Z)
  : result (list PeerID) :=
  acc ← acc;
  match rs !! ic.1 with
  | Some rg =>
      got ← ring_Recommend (rnd ic.1) ic.2 exclude rg;
      Ok (acc ++ got)
  | None => Panic "index out of range"
  end.

(** [Recommend].  [rnd i] is the draw of [rand.Perm] for ring [i], and
    [rnd (len(nodesFromRing))] the one of [sample]; [order] is the order
    in which [sample] ranges over the peers. *)
Definition Recommend (rnd : nat → list nat) (order : list PeerID)
    (count : Z) (excludeList : list PeerID) (r : ringsRoutingTable)
  : result (list PeerID) :=
  let exclude := exclude_all ∅ excludeList in
  nodes0 ← make_ints (RingsCount (conf r));
  '(nodesFromRing, _) ←
    foldl (round_robin (RingsCount (conf r))) (Ok (nodes0, 0))
      (seq 0 (Z.to_nat count));
  recommended ←
    foldl (from_ring rnd exclude (rings r)) (Ok [])
      (zip (seq 0 (length nodesFromRing)) nodesFromRing);
  if Z.of_nat (length recommended) <? count then
    let exclude := exclude_all exclude recommended in
    rest ← sample order (rnd (length nodesFromRing))
             (count - Z.of_nat (length recommended)) exclude r;
    Ok (recommended ++ rest)
  else Ok recommended.

Definition Size (r : ringsRoutingTable) : Z := Z.of_nat (size (peers r)).

Definition Shutdown (r : ringsRoutingTable) : result ringsRoutingTable :=
  c ← close (shutdown r);
  Ok {| conf := conf r; peers := peers r; rings := rings r;
        latRanges := latRanges r; metrics := metrics r; shutdown := c |}.

End RoutingTable.

Arguments ringsRoutingTable M : clear implicits.

(** ** The background goroutine of the table *)

Section Background.

Context {M : Type} `{Metrics M}.

(** What one run of the body draws: the map order and the permutation of
    [refreshLatency], and the map order of [populateRings]. *)
Record draws := mkDraws {
  refresh_order : list PeerID;
  refresh_perm : list nat;
  populate_order : list PeerID;
}.

(** What the [select] of the goroutine is offered: a sample period has
    elapsed since it started to wait, or its shutdown case is tried, which
    is ready only when the channel has been closed. *)
Inductive wakeup :=
  | TimerFired (d : draws)     (* <-time.After(r.conf.SamplePeriod) *)
  | ShutdownObserved.          (* <-r.shutdown *)

(** The goroutine is either waiting in its [select] or has returned. *)
Inductive phase := Selecting | Returned.

Record background := mkBackground {
  bg_phase : phase;
  bg_table : ringsRoutingTable M;
  (* how often refreshLatency and populateRings have been run *)
  bg_runs : nat;
}.

(** [go func() { select { ... } }()]: the function literal holds one
    [select] statement and nothing after it, so either case ends the
    goroutine; what is offered after that finds nobody waiting. *)
Definition background_step (s : result background) (ev : wakeup)
  : result background :=
  s ← s;
  match bg_phase s with
  | Returned => Ok s
  | Selecting =>
      match ev with
      | TimerFired d =>
          r1 ← refreshLatency (refresh_order d) (refresh_perm d) (bg_table s);
          r2 ← populateRings (populate_order d) r1;
          Ok (mkBackground Returned r2 (S (bg_runs s)))
      | ShutdownObserved =>
          _ ← recv (shutdown (bg_table s));
          Ok (mkBackground Returned (bg_table s) (bg_runs s))
      end
  end.

Definition start_background (r : ringsRoutingTable M) : background :=
  mkBackground Selecting r 0.

Definition run_background (evs : list wakeup) (s : background)
  : result background :=
  foldl background_step (Ok s) evs.

End Background.

Arguments background M : clear implicits.

(** ** A latency estimator to run the table on *)

(** Modelled from the spec: the LatencyEstimator collaborator (the metrics
    store of the libp2p peer store, which is not part of this repository).
    [record] folds a sample into the smoothed estimate of the peer and
    [estimate] reads it, with zero for a peer without samples.  The
    smoothing weight is the estimator's choice; here the first sample is
    taken as it is and later ones weigh one tenth. *)
Abbreviation ewma_store := (gmap PeerID Duration) (only parsing).

Definition ewma_record (m : ewma_store) (pid : PeerID) (next : Duration)
  : ewma_store :=
  match m !! pid with
  | None => <[pid := next]> m
  | Some old => <[pid := (9 * old + next) / 10]> m
  end.

Definition ewma_estimate (m : ewma_store) (pid : PeerID) : Duration :=
  default 0 (m !! pid).

#[global] Instance ewma_metrics : Metrics ewma_store :=
  {| NewMetrics := ∅;
     RecordLatency := ewma_record;
     LatencyEWMA := ewma_estimate |}.

(** ** The pairing service *)

Abbreviation byte := Z (only parsing).

Definition ack : byte := 0x06.
Definition nak : byte := 0x15.

(** A stream of the transport: its identity and the peer at its other
    end ([stream.Conn().RemotePeer()]). *)
Record Stream := mkStream { stream_id : nat; RemotePeer : PeerID }.

#[global] Instance Stream_eq_dec : EqDecision Stream.
Proof. solve_decision. Defined.

(** Modelled from the spec: the StreamStore collaborator (the stream store
    package of this repository, whose source is not at hand).  [add]
    registers a stream for a peer and answers whether it was accepted;
    [remove] removes the entry of the peer.  What [remove] does with the
    stream of that entry is not said: no property below speaks of the
    closing of a stream on a path that calls it. *)
Class StreamStore (S : Type) := {
  store_Add : S → PeerID → Stream → bool → S * bool;
  store_Remove : S → PeerID → S;
}.

(** Modelled from the spec: a StreamStore that rejects a second
    registration for a peer that already has one. *)
Abbreviation stream_map := (gmap PeerID (Stream * bool)) (only parsing).

#[global] Instance stream_map_store : StreamStore stream_map :=
  {| store_Add := fun s pid stream outbound =>
       match s !! pid with
       | Some _ => (s, false)
       | None => (<[pid := (stream, outbound)]> s, true)
       end;
     store_Remove := fun s pid => delete pid s |}.

Section Pairing.

Context {M : Type} `{Metrics M} {SS : Type} `{StreamStore SS}.

(** One call of [util.WriteWithTimeout]. *)
Record write := mkWrite {
  write_stream : Stream;
  write_data : list byte;
  write_err : option error;
}.

(** The part of the client that pairing reads or changes, with the
    effects on its collaborators recorded in order: the calls of
    [stream.Close()], the writes, and the streams handed to
    [go client.process(stream)]. *)
Record client := mkClient {
  table : ringsRoutingTable M;
  addrs : gmap PeerID (list string);     (* client.peerstore *)
  streamstore : SS;
  closes : list Stream;
  writes : list write;
  processes : list Stream;
}.

Definition set_table (t : ringsRoutingTable M) (c : client) : client :=
  mkClient t (addrs c) (streamstore c) (closes c) (writes c) (processes c).
Definition ClearAddrs (pid : PeerID) (c : client) : client :=
  mkClient (table c) (delete pid (addrs c)) (streamstore c) (closes c)
    (writes c) (processes c).
Definition set_streamstore (s : SS) (c : client) : client :=
  mkClient (table c) (addrs c) s (closes c) (writes c) (processes c).
Definition Close (stream : Stream) (c : client) : client :=
  mkClient (table c) (addrs c) (streamstore c) (closes c ++ [stream])
    (writes c) (processes c).
Definition WriteWithTimeout (stream : Stream) (data : list byte)
    (err : option error) (c : client) : client :=
  mkClient (table c) (addrs c) (streamstore c) (closes c)
    (writes c ++ [mkWrite stream data err]) (processes c).
Definition go_process (stream : Stream) (c : client) : client :=
  mkClient (table c) (addrs c) (streamstore c) (closes c) (writes c)
    (processes c ++ [stream]).

(** Request to exchange artifacts with a peer.  [opened] is the outcome
    of [client.host.NewStream] and [received] the one of
    [util.ReadWithTimeout(stream, 1, client.config.Timeout)]. *)
Definition pair (opened : Stream + error) (received : list byte + error)
    (peerId : PeerID) (c : client) : result (bool * option error * client) :=
  let pid := peerId in
  match opened with
  | inr err =>
      let c := ClearAddrs pid c in
      t ← Remove pid (table c);
      Ok (false, Some err, set_table t c)
  | inl stream =>
      match received with
      | inr err => Ok (false, Some err, Close stream c)
      | inl data =>
          match data with
          | [] => Panic "index out of range"
          | b :: _ =>
              if decide (b = ack) then
                let '(s, added) := store_Add (streamstore c) pid stream true in
                let c := set_streamstore s c in
                if added then Ok (true, None, go_process stream c)
                else Ok (false, None, Close stream c)
              else Ok (false, None, Close stream c)
          end
      end
  end.

(** The closure [reject] of [pairHandler]; [sent] is the outcome of its
    write. *)
Definition reject (sent : option error) (stream : Stream) (c : client)
  : client :=
  Close stream (WriteWithTimeout stream [nak] sent c).

(** Handle incomming pairing requests.  [sent] is the outcome of the one
    call of [util.WriteWithTimeout] that the handler makes. *)
Definition pairHandler (sent : option error) (stream : Stream) (c : client)
  : client :=
  let pid := RemotePeer stream in
  let '(s, added) := store_Add (streamstore c) pid stream false in
  let c := set_streamstore s c in
  if negb added then reject sent stream c
  else
    let c := WriteWithTimeout stream [ack] sent c in
    match sent with
    | Some _ => set_streamstore (store_Remove (streamstore c) pid) c
    | None => go_process stream c
    end.

(** How often a stream has been closed or handed off. *)
Definition occurrences (stream : Stream) (l : list Stream) : nat :=
  length (filter (fun s => s = stream) l).

Definition released (stream : Stream) (c : client) : nat :=
  (occurrences stream (closes c) + occurrences stream (processes c))%nat.

End Pairing.

Arguments client M SS : clear implicits.

(** ** Notions used in the properties *)

(** A loop body is strict when it passes a panic or a block on. *)
Definition strict {A B} (f : result A → B → result A) : Prop :=
  (∀ msg x, f (Panic msg) x = Panic msg) ∧ (∀ x, f Blocked x = Blocked).

(** The index of the rings that hold a peer. *)
Definition rings_holding (pid : PeerID) (rs : list ring) : list nat :=
  (filter (fun ir => bool_decide (pid ∈ ring_peers ir.2))
     (zip (seq 0 (length rs)) rs)).*1.

(** Rings in which no peer occurs twice. *)
Definition duplicate_free (rs : list ring) : Prop :=
  Forall (fun rg => NoDup (ring_peers rg)) rs.

(** A ring with every occurrence of a peer taken out. *)
Definition without (pid : PeerID) (rg : ring) : ring :=
  mkRing (filter (fun x => x ≠ pid) (ring_peers rg)).

(** The ring index that [populateRings] computes for a peer. *)
Definition ring_index {M} `{Metrics M} (r : ringsRoutingTable M)
    (pid : PeerID) : option nat :=
  find_ring (LatencyEWMA (metrics r) pid) (latRanges r) (length (latRanges r)).

(** [n] rings that hold, in the order of the visit, the visited peers of
    each index. *)
Definition rings_by_index {M} `{Metrics M} (r : ringsRoutingTable M) (n : nat)
    (visited : list PeerID) : list ring :=
  (fun i => mkRing (filter (fun pid => ring_index r pid = Some i) visited))
    <$> seq 0 n.

(** The sum of a list of counters. *)
Definition total (nodes : list Z) : Z := foldr Z.add 0 nodes.


(** The shape that the constructor gives a table with at least one ring:
    as many rings and as many range bounds as the configuration counts. *)
Definition well_formed {M} (r : ringsRoutingTable M) : Prop :=
  1 ≤ RingsCount (conf r) ∧
  length (rings r) = Z.to_nat (RingsCount (conf r)) ∧
  length (latRanges r) = Z.to_nat (RingsCount (conf r)).

(** No peer is twice in the rings, be it in one ring or in two. *)
Definition disjoint_rings (rs : list ring) : Prop :=
  NoDup (concat (ring_peers <$> rs)).

(** Draws that [rand.Perm] may return in one [Recommend] call: a
    permutation of the positions of each ring, and for [sample] one of the
    positions of the map order. *)
Definition valid_draws (rnd : nat → list nat) (order : list PeerID)
    (rs : list ring) : Prop :=
  (∀ i rg, rs !! i = Some rg → is_perm (length (ring_peers rg)) (rnd i)) ∧
  is_perm (length order) (rnd (length rs)).

(** The slots of ring [i] when [count] slots are dealt to [n] rings. *)
Definition quota (n count : Z) (i : nat) : Z :=
  count / n + (if Z.of_nat i <? count mod n then 1 else 0).

(** The slots dealt to the [n] rings when [count] peers are asked for. *)
Definition quotas (n count : Z) : list Z :=
  quota n (Z.max 0 count) <$> seq 0 (Z.to_nat n).

(** The peers that a walk over [idxs] takes from a list. *)
Definition taken (idxs : list nat) (exclude : gmap PeerID bool)
    (peers : list PeerID) : list PeerID :=
  filter (fun pid => map_get exclude pid = false) (omap (peers !!.) idxs).

(** The peers that ring [ic.1] answers when asked for [ic.2] of them. *)
Definition picked (rnd : nat → list nat) (exclude : gmap PeerID bool)
    (rs : list ring) (ic : nat * Z) : list PeerID :=
  match rs !! ic.1 with
  | Some rg => taken (take (Z.to_nat ic.2) (rnd ic.1)) exclude (ring_peers rg)
  | None => []
  end.

(** The peers that the rings answer for a list of quotas. *)
Definition from_rings (rnd : nat → list nat) (exclude : gmap PeerID bool)
    (rs : list ring) (qs : list Z) : list PeerID :=
  concat (picked rnd exclude rs <$> zip (seq 0 (length qs)) qs).

(** ** Scenarios *)

(** A probe that answers from a table of latencies and fails for every
    other peer. *)
Definition probe_table (l : list (PeerID * Duration)) : LatencyProbeFn :=
  fun pid =>
    match (list_to_map l : gmap PeerID Duration) !! pid with
    | Some d => inl d
    | None => inr "unreachable"%string
    end.

(** Scenario A of the specification: four rings, base latency 10ms, growth
    factor 2. *)
Definition scenarioA (probe : LatencyProbeFn) : RingsConfig :=
  {| RingsCount := 4;
     BaseLatency := 10 * Millisecond;
     LatencyGrowthFactor := Float64.of_int64 2;
     SampleSize := 16;
     SamplePeriod := 30 * Second;
     LatencyProbFn := probe |}.

(** The table of scenario A after [Add] of the peers of [l], in this
    order, each answering the probe with its latency of [l]. *)
Definition table_with (l : list (PeerID * Duration))
  : ringsRoutingTable ewma_store :=
  foldl (fun r pid => Add pid r)
    (NewRingsRoutingTable (scenarioA (probe_table l))) (l.*1).

(** The rings of a table after a repopulation pass that visits the peers
    in the order of [l]. *)
Definition populated (l : list (PeerID * Duration))
  : result (ringsRoutingTable ewma_store) :=
  populateRings (l.*1) (table_with l).

Definition rings_of {M} (r : result (ringsRoutingTable M))
  : result (list (list PeerID)) :=
  r ← r; Ok (ring_peers <$> rings r).

(** The table of scenario A after [Add] of a peer p whose probe answers
    zero, and that table after a repopulation pass. *)
Definition tableP0 : ringsRoutingTable ewma_store :=
  table_with [("p"%string, 0)].

Definition tableP0_populated : ringsRoutingTable ewma_store :=
  match populateRings ["p"%string] tableP0 with
  | Ok r => r
  | _ => tableP0
  end.

(** Scenario B of the specification: peers a, b and c at 5ms, 15ms and
    45ms. *)
Definition scenarioB : list (PeerID * Duration) :=
  [("a"%string, 5 * Millisecond); ("b"%string, 15 * Millisecond);
   ("c"%string, 45 * Millisecond)].

(** The draws of one [Recommend] call on the table of scenario B: every
    ring has at most one peer, so its permutation is forced; [sample]
    draws the identity on the three peers. *)
Definition drawsB (i : nat) : list nat :=
  match i with
  | 0%nat | 1%nat | 3%nat => [0%nat]
  | 2%nat => []
  | _ => [0%nat; 1%nat; 2%nat]
  end.

(** The table of scenario B after a repopulation pass. *)
Definition tableB : ringsRoutingTable ewma_store :=
  match populated scenarioB with
  | Ok r => r
  | _ => table_with scenarioB
  end.

(** The table of scenario B after [Remove] of peer a. *)
Definition tableB_without_a : ringsRoutingTable ewma_store :=
  match Remove "a" tableB with
  | Ok r => r
  | _ => tableB
  end.

(** The table of scenario B after [Remove] of peer b. *)
Definition tableB_without_b : ringsRoutingTable ewma_store :=
  match Remove "b" tableB with
  | Ok r => r
  | _ => tableB
  end.

(** Draws of one [Recommend] call on the table without a: ring 0 is empty
    now. *)
Definition drawsB_without_a (i : nat) : list nat :=
  match i with
  | 1%nat | 3%nat => [0%nat]
  | 4%nat => [0%nat; 1%nat]
  | _ => []
  end.

(** The table of scenario A with the probe of scenario B and no peer. *)
Definition emptyB : ringsRoutingTable ewma_store :=
  NewRingsRoutingTable (scenarioA (probe_table scenarioB)).

(** The peers of a map order that a set of exclusions leaves. *)
Definition eligible (order excludeList : list PeerID) : list PeerID :=
  filter (fun pid => pid ∉ excludeList) order.

(** A fresh table with the default configuration. *)
Definition default_table : ringsRoutingTable ewma_store :=
  NewRingsRoutingTable (NewDefaultRingsConfig (probe_table [])).

(** The draws of a run of the refresh body on a table without peers. *)
Definition no_draws : draws := mkDraws [] [] [].

(** A stream to or from peer b, and a client that knows the peers of
    scenario B, has an address of b and no registered stream. *)
Definition streamB : Stream := mkStream 7 "b".

Definition clientB : client ewma_store stream_map :=
  mkClient tableB {[ "b"%string := ["/ip4/10.0.0.2/tcp/4001"%string] ]} ∅
    [] [] [].

(** The same client with a stream of peer b registered already. *)
Definition clientB_paired : client ewma_store stream_map :=
  mkClient tableB {[ "b"%string := ["/ip4/10.0.0.2/tcp/4001"%string] ]}
    {[ "b"%string := (mkStream 3 "b", true) ]} [] [] [].

(** Scenario A with a ring count of zero. *)
Definition scenarioZ (probe : LatencyProbeFn) : RingsConfig :=
  {| RingsCount := 0;
     BaseLatency := 10 * Millisecond;
     LatencyGrowthFactor := Float64.of_int64 2;
     SampleSize := 16;
     SamplePeriod := 30 * Second;
     LatencyProbFn := probe |}.

(** A table without rings that knows peer a of scenario B. *)
Definition tableZ : ringsRoutingTable ewma_store :=
  Add "a" (NewRingsRoutingTable (scenarioZ (probe_table scenarioB))).

(** The table of scenario B when no peer answers a probe any more. *)
Definition tableB_offline : ringsRoutingTable ewma_store :=
  {| conf := scenarioA (probe_table []);
     peers := peers tableB;
     rings := rings tableB;
     latRanges := latRanges tableB;
     metrics := metrics tableB;
     shutdown := shutdown tableB |}.

(** The draws of one [Recommend] call on a table of scenario A whose rings
    are empty. *)
Definition draws_fresh (i : nat) : list nat :=
  match i with
  | 4%nat => [0%nat; 1%nat; 2%nat]
  | _ => []
  end.

(** A call in which [rand.Perm] is not reached or draws nothing. *)
Definition no_rnd (i : nat) : list nat := [].


(** ** Properties of the ring-based routing table *)

(** *** Loops over an outcome *)

Lemma foldl_Panic {A B} (f : result A → B → result A) msg l :
  strict f → foldl f (Panic msg) l = Panic msg.
Proof.
  intros [Hp _]. induction l as [|x l IH]; simpl; [done|].
  by rewrite Hp.
Qed.

Lemma foldl_Blocked {A B} (f : result A → B → result A) l :
  strict f → foldl f Blocked l = Blocked.
Proof.
  intros [_ Hb]. induction l as [|x l IH]; simpl; [done|].
  by rewrite Hb.
Qed.

(** An invariant of the body is an invariant of the loop. *)
Lemma foldl_Ok_ind {A B} (f : result A → B → result A) (P : A → Prop) l :
  strict f →
  (∀ a x a', x ∈ l → P a → f (Ok a) x = Ok a' → P a') →
  ∀ a a', P a → foldl f (Ok a) l = Ok a' → P a'.
Proof.
  intros Hs. induction l as [|x l IH]; simpl; intros Hstep a a' Ha Hrun.
  - by inversion Hrun; subst.
  - destruct (f (Ok a) x) as [b|msg|] eqn:Hx.
    + apply (IH (fun a0 y a1 Hy => Hstep a0 y a1 (list_elem_of_further _ _ _ Hy))
               b a'); [|done].
      eapply Hstep; [apply list_elem_of_here|done|done].
    + by rewrite foldl_Panic in Hrun.
    + by rewrite foldl_Blocked in Hrun.
Qed.

Lemma strict_place {M} `{Metrics M} (m : M) lr : strict (place m lr).
Proof. by split. Qed.

Lemma strict_remove_iter pid : strict (remove_iter pid).
Proof. by split. Qed.

Lemma strict_walk_perm peers exclude : strict (walk_perm peers exclude).
Proof. by split. Qed.

(** *** The ring a latency is put in *)

(** [find_ring] answers the highest index, below the start, whose range
    bound lies strictly below the latency. *)
Lemma find_ring_Some latency lr i k :
  find_ring latency lr i = Some k →
  (k < i)%nat ∧
  (∃ bound, lr !! k = Some bound ∧ bound < latency) ∧
  ∀ j bound, (k < j < i)%nat → lr !! j = Some bound → latency ≤ bound.
Proof.
  induction i as [|i IH]; simpl; [done|].
  destruct (lr !! i) as [b|] eqn:Hb; [|done].
  destruct (b <? latency) eqn:Hlt.
  - intros [= <-]. apply Z.ltb_lt in Hlt.
    split; [lia|]. split; [by exists b|]. intros j ? ?. lia.
  - intros Hk. destruct (IH Hk) as (Hki & Hbound & Habove).
    apply Z.ltb_ge in Hlt.
    split; [lia|]. split; [done|].
    intros j b' Hj Hjb. destruct (decide (j = i)) as [->|].
    + by simplify_eq.
    + apply (Habove j); [lia|done].
Qed.

(** A latency that exceeds no range bound is given no ring. *)
Lemma find_ring_None latency lr i :
  (i ≤ length lr)%nat →
  find_ring latency lr i = None ↔
  ∀ j bound, (j < i)%nat → lr !! j = Some bound → latency ≤ bound.
Proof.
  induction i as [|i IH]; simpl; intros Hi.
  - split; [|done]. intros _ j ? ?. lia.
  - destruct (lr !! i) as [b|] eqn:Hb;
      [|apply lookup_ge_None in Hb; lia].
    destruct (b <? latency) eqn:Hlt.
    + apply Z.ltb_lt in Hlt. split; [done|].
      intros Hall. specialize (Hall i b ltac:(lia) Hb). lia.
    + apply Z.ltb_ge in Hlt. rewrite IH by lia. split.
      * intros Hall j b' Hj Hjb. destruct (decide (j = i)) as [->|].
        -- by simplify_eq.
        -- apply (Hall j); [lia|done].
      * intros Hall j b' Hj. apply Hall. lia.
Qed.

(** With a first bound of zero a latency of zero is given no ring. *)
Lemma find_ring_zero lr :
  Forall (fun bound => 0 ≤ bound) lr →
  find_ring 0 lr (length lr) = None.
Proof.
  intros Hall. apply find_ring_None; [done|].
  intros j b _ Hj. rewrite Forall_lookup in Hall. by apply (Hall j).
Qed.

(** X2: [find_ring] answers [i] exactly when [i] is the highest index whose
    range bound lies strictly below the latency. *)
Lemma find_ring_spec latency (lr : list Duration) i :
  find_ring latency lr (length lr) = Some i ↔
  (∃ bound, lr !! i = Some bound ∧ bound < latency) ∧
  ∀ j bound, (i < j)%nat → lr !! j = Some bound → latency ≤ bound.
Proof.
  split.
  - intros (Hi & Hbound & Habove)%find_ring_Some. split; [done|].
    intros j b Hj Hb. apply (Habove j); [|done].
    apply lookup_lt_Some in Hb. lia.
  - intros [(b & Hb & Hlt) Habove].
    destruct (find_ring latency lr (length lr)) as [k|] eqn:Hk.
    + apply find_ring_Some in Hk as (Hklen & (bk & Hbk & Hltk) & Hkabove).
      destruct (Nat.lt_trichotomy k i) as [Hlt'|[->|Hgt]]; [|done|].
      * pose proof (lookup_lt_Some _ _ _ Hb) as Hilen.
        specialize (Hkabove i b ltac:(lia) Hb). lia.
      * specialize (Habove k bk Hgt Hbk). lia.
    + rewrite find_ring_None in Hk by done.
      specialize (Hk i b (lookup_lt_Some _ _ _ Hb) Hb). lia.
Qed.

(** The loop of the constructor appends one bound in each round. *)
Lemma length_growLatRanges n g k : length (growLatRanges n g k) = n.
Proof.
  revert k. induction n as [|n IH]; intros k; simpl; [done|]. by rewrite IH.
Qed.

(** The constructor makes as many range bounds as rings, and one bound when
    no ring is asked for. *)
Lemma length_newLatRanges c :
  length (newLatRanges c) = Z.to_nat (Z.max 1 (RingsCount c)).
Proof. unfold newLatRanges; simpl. rewrite length_growLatRanges. lia. Qed.

(** No ring holds a peer that is in none of them. *)
Lemma rings_holding_nil pid rs :
  Forall (fun rg => pid ∉ ring_peers rg) rs → rings_holding pid rs = [].
Proof.
  intros Hrs. unfold rings_holding.
  generalize (seq 0 (length rs)).
  induction Hrs as [|rg rs Hrg _ IH]; intros [|n l]; simpl; try done.
  rewrite filter_cons. simpl.
  rewrite bool_decide_eq_false_2 by done. apply IH.
Qed.

(** The ring at an index. *)
Lemma rings_by_index_lookup {M} `{Metrics M} (r : ringsRoutingTable M) n
    visited i :
  (i < n)%nat →
  rings_by_index r n visited !! i
  = Some (mkRing (filter (fun pid => ring_index r pid = Some i) visited)).
Proof.
  intros Hi. unfold rings_by_index.
  by rewrite list_lookup_fmap, lookup_seq_lt.
Qed.

Lemma length_rings_by_index {M} `{Metrics M} (r : ringsRoutingTable M) n
    visited :
  length (rings_by_index r n visited) = n.
Proof. unfold rings_by_index. by rewrite length_fmap, length_seq. Qed.

(** One round of the loop extends the visit by one peer. *)
Lemma place_rings_by_index {M} `{Metrics M} (r : ringsRoutingTable M) n
    visited pid rs :
  place (metrics r) (latRanges r) (Ok (rings_by_index r n visited)) pid = Ok rs →
  rs = rings_by_index r n (visited ++ [pid]).
Proof.
  unfold place; simpl. fold (ring_index r pid).
  destruct (ring_index r pid) as [i|] eqn:Hidx.
  - destruct (rings_by_index r n visited !! i) as [rg|] eqn:Hrg; [|done].
    intros [= <-].
    assert (i < n)%nat as Hi.
    { apply lookup_lt_Some in Hrg. by rewrite length_rings_by_index in Hrg. }
    rewrite rings_by_index_lookup in Hrg by done. injection Hrg as <-.
    apply list_eq. intros j.
    destruct (decide (j < n)%nat) as [Hj|Hj].
    + rewrite rings_by_index_lookup by done.
      destruct (decide (j = i)) as [->|Hne].
      * rewrite list_lookup_insert_eq by (by rewrite length_rings_by_index).
        unfold ring_Add; simpl.
        by rewrite filter_app, filter_cons_True, filter_nil.
      * rewrite list_lookup_insert_ne by done.
        rewrite rings_by_index_lookup by done.
        rewrite filter_app, filter_cons_False, filter_nil, app_nil_r; [done|].
        rewrite Hidx. congruence.
    + rewrite !lookup_ge_None_2;
        rewrite ?length_insert, ?length_rings_by_index; [done|lia..].
  - intros [= <-]. unfold rings_by_index. apply list_fmap_ext.
    intros _ i _. f_equal.
    rewrite filter_app, filter_cons_False, filter_nil, app_nil_r; [done|].
    by rewrite Hidx.
Qed.

(** The loop extends the visit by the peers of the order. *)
Lemma foldl_place_rings_by_index {M} `{Metrics M} (r : ringsRoutingTable M)
    n order visited rs :
  foldl (place (metrics r) (latRanges r)) (Ok (rings_by_index r n visited)) order
    = Ok rs →
  rs = rings_by_index r n (visited ++ order).
Proof.
  revert visited. induction order as [|pid order IH]; intros visited;
    cbn [foldl].
  - intros [= <-]. by rewrite app_nil_r.
  - destruct (place (metrics r) (latRanges r)
                (Ok (rings_by_index r n visited)) pid) as [rs1| |] eqn:Hplace.
    + apply place_rings_by_index in Hplace as ->.
      intros Hrun. apply IH in Hrun. by rewrite <- app_assoc in Hrun.
    + by rewrite foldl_Panic by apply strict_place.
    + by rewrite foldl_Blocked by apply strict_place.
Qed.

(** The rings after a repopulation pass: ring [i] holds the visited peers
    whose latency estimate selects index [i], in the order of the visit. *)
Lemma populateRings_rings {M} `{Metrics M} order
    (r r' : ringsRoutingTable M) :
  populateRings order r = Ok r' →
  rings r' = rings_by_index r (Z.to_nat (RingsCount (conf r))) order ∧
  peers r' = peers r ∧ metrics r' = metrics r ∧ latRanges r' = latRanges r ∧
  conf r' = conf r ∧ shutdown r' = shutdown r.
Proof.
  unfold populateRings.
  destruct (foldl _ _ order) as [rs| |] eqn:Hrun; simpl; [|done..].
  intros [= <-]; simpl. split; [|done].
  apply (foldl_place_rings_by_index r _ order []).
  rewrite <- Hrun. f_equal. f_equal.
  unfold newRings, rings_by_index.
  generalize (Z.to_nat (RingsCount (conf r))) as n. intros n.
  generalize 0%nat as k. induction n as [|n IH]; intros k; simpl; [done|].
  by rewrite IH.
Qed.

(** One round of the loop does not panic when there are at least as many
    rings as range bounds, and keeps the number of rings. *)
Lemma place_Ok {M} `{Metrics M} (m : M) lr rs pid :
  (length lr ≤ length rs)%nat →
  ∃ rs', place m lr (Ok rs) pid = Ok rs' ∧ length rs' = length rs.
Proof.
  intros Hlen. unfold place; simpl.
  destruct (find_ring _ _ _) as [i|] eqn:Hi; [|by eexists].
  apply find_ring_Some in Hi as (Hi & _).
  destruct (lookup_lt_is_Some_2 rs i) as [rg ->]; [lia|].
  eexists. split; [done|]. by rewrite length_insert.
Qed.

(** A repopulation pass does not panic when there are at least as many
    rings as range bounds. *)
Lemma populateRings_Ok {M} `{Metrics M} order (r : ringsRoutingTable M) :
  (length (latRanges r) ≤ Z.to_nat (RingsCount (conf r)))%nat →
  is_Ok (populateRings order r).
Proof.
  intros Hlen. unfold populateRings.
  assert (∀ rs, (length (latRanges r) ≤ length rs)%nat →
            ∃ rs', foldl (place (metrics r) (latRanges r)) (Ok rs) order = Ok rs')
    as Hrun.
  { induction order as [|pid order IH]; intros rs Hrs; cbn [foldl];
      [by eexists|].
    destruct (place_Ok (metrics r) (latRanges r) rs pid Hrs) as (rs1 & -> & Hrs1).
    apply IH. lia. }
  destruct (Hrun (newRings (conf r))) as [rs' ->].
  { unfold newRings. by rewrite length_replicate. }
  simpl. by eexists.
Qed.

(** After a repopulation pass a peer is in
    ring [j] exactly when it was visited and its latency selects [j]. *)
Lemma populateRings_elem_of {M} `{Metrics M} order
    (r r' : ringsRoutingTable M) pid j rg :
  populateRings order r = Ok r' →
  rings r' !! j = Some rg →
  pid ∈ ring_peers rg ↔ pid ∈ order ∧ ring_index r pid = Some j.
Proof.
  intros (-> & _)%populateRings_rings Hj.
  assert (j < Z.to_nat (RingsCount (conf r)))%nat as Hlt.
  { apply lookup_lt_Some in Hj. by rewrite length_rings_by_index in Hj. }
  rewrite rings_by_index_lookup in Hj by done. injection Hj as <-; simpl.
  rewrite list_elem_of_filter. tauto.
Qed.

(** A repopulation pass never puts a peer into a ring when its latency
    estimate exceeds no range bound. *)
Lemma populateRings_skips {M} `{Metrics M} order (r r' : ringsRoutingTable M) pid :
  (∀ bound, bound ∈ latRanges r → LatencyEWMA (metrics r) pid ≤ bound) →
  populateRings order r = Ok r' →
  rings_holding pid (rings r') = [].
Proof.
  intros Hlat Hrun. apply rings_holding_nil, Forall_lookup.
  intros j rg Hj Hpid.
  apply (populateRings_elem_of _ _ _ pid _ _ Hrun Hj) in Hpid as [_ Hidx].
  apply find_ring_Some in Hidx as (_ & (b & Hb & Hlt) & _).
  specialize (Hlat b (list_elem_of_lookup_2 _ _ _ Hb)). lia.
Qed.

(** After a repopulation pass over an order without repetition no peer
    occurs twice in a ring. *)
Lemma populateRings_duplicate_free {M} `{Metrics M} order
    (r r' : ringsRoutingTable M) :
  NoDup order → populateRings order r = Ok r' → duplicate_free (rings r').
Proof.
  intros Horder (-> & _)%populateRings_rings.
  unfold duplicate_free, rings_by_index. rewrite Forall_fmap.
  apply Forall_true. intros i; simpl. by apply NoDup_filter.
Qed.

(** X1: with at least as many rings as range bounds a repopulation pass
    succeeds, and a visited peer whose latency estimate exceeds some range
    bound is then in exactly one ring: the one with the highest bound
    strictly below the estimate. *)
Theorem populateRings_exactly_one_ring {M} `{Metrics M} order
    (r : ringsRoutingTable M) pid i :
  (length (latRanges r) ≤ Z.to_nat (RingsCount (conf r)))%nat →
  pid ∈ order →
  ring_index r pid = Some i →
  ∃ r', populateRings order r = Ok r' ∧
        (∃ rg, rings r' !! i = Some rg ∧ pid ∈ ring_peers rg) ∧
        (∀ j rg, rings r' !! j = Some rg → pid ∈ ring_peers rg → j = i) ∧
        (NoDup order → duplicate_free (rings r')).
Proof.
  intros Hlen Hpid Hidx.
  destruct (populateRings_Ok order r Hlen) as [r' Hrun].
  exists r'. split; [done|].
  pose proof (populateRings_rings _ _ _ Hrun) as (Hrings & _).
  split; [|split].
  - assert (i < Z.to_nat (RingsCount (conf r)))%nat as Hi.
    { apply find_ring_Some in Hidx as (Hi & _). lia. }
    eexists. split.
    + rewrite Hrings. by apply rings_by_index_lookup.
    + simpl. by apply list_elem_of_filter.
  - intros j rg Hj Hin.
    apply (populateRings_elem_of _ _ _ pid _ _ Hrun Hj) in Hin as [_ Hj'].
    congruence.
  - intros Hnd. by eapply populateRings_duplicate_free.
Qed.

Lemma populateRings_exactly_one_ring_witness :
  ((length (latRanges (table_with scenarioB))
    ≤ Z.to_nat (RingsCount (conf (table_with scenarioB))))%nat ∧
   "b"%string ∈ ["a"; "b"; "c"]%string ∧
   ring_index (table_with scenarioB) "b" = Some 1%nat) ∧
  ∃ r', populateRings ["a"; "b"; "c"]%string (table_with scenarioB) = Ok r' ∧
        (∃ rg, rings r' !! 1%nat = Some rg ∧ "b"%string ∈ ring_peers rg) ∧
        (∀ j rg, rings r' !! j = Some rg → "b"%string ∈ ring_peers rg →
                 j = 1%nat) ∧
        (NoDup ["a"; "b"; "c"]%string → duplicate_free (rings r')).
Proof.
  assert ("b"%string ∈ ["a"; "b"; "c"]%string) as Hin.
  { apply list_elem_of_further, list_elem_of_here. }
  split.
  { split; [vm_compute; lia|]. split; [exact Hin|vm_compute; reflexivity]. }
  apply (populateRings_exactly_one_ring ["a"; "b"; "c"]%string
           (table_with scenarioB) "b"%string 1%nat);
    [vm_compute; lia|exact Hin|vm_compute; reflexivity].
Defined.

(** C2: after a repopulation pass every known peer should sit in exactly
    one ring, also with the default or a zero latency estimate.  The code
    compares with [latency > r.latRanges[i]]: with range bounds that are
    not negative (the first one is zero), a peer whose estimate is zero is
    put in no ring, whatever the estimator and the table. *)
Theorem populateRings_zero_latency_in_no_ring {M} `{Metrics M} order
    (r r' : ringsRoutingTable M) pid :
  Forall (fun bound => 0 ≤ bound) (latRanges r) →
  LatencyEWMA (metrics r) pid ≤ 0 →
  populateRings order r = Ok r' →
  rings_holding pid (rings r') = [].
Proof.
  intros Hbounds Hzero. apply populateRings_skips.
  intros bound Hbound. rewrite Forall_forall in Hbounds.
  specialize (Hbounds bound Hbound). lia.
Qed.

(** The table of scenario A after [Add] of a peer p whose probe answered
    zero: p is known, the table has size one, and after the repopulation
    pass all four rings are empty. *)
Lemma populateRings_zero_latency_in_no_ring_witness :
  (Forall (fun bound => 0 ≤ bound) (latRanges tableP0) ∧
   LatencyEWMA (metrics tableP0) "p" ≤ 0 ∧
   populateRings ["p"%string] tableP0 = Ok tableP0_populated) ∧
  (map_get (peers tableP0) "p" = true ∧ Size tableP0 = 1 ∧
   ring_peers <$> rings tableP0_populated = [[]; []; []; []]) ∧
  rings_holding "p" (rings tableP0_populated) = [].
Proof.
  assert (Forall (fun bound => 0 ≤ bound) (latRanges tableP0)) as Hbounds.
  { assert (latRanges tableP0
            = [0; 10 * Millisecond; 20 * Millisecond; 40 * Millisecond]) as ->
      by (vm_compute; reflexivity).
    repeat (apply Forall_cons; split; [vm_compute; discriminate|]).
    apply Forall_nil_2. }
  assert (LatencyEWMA (metrics tableP0) "p" ≤ 0) as Hzero
    by (vm_compute; discriminate).
  split; [split; [exact Hbounds|split; [exact Hzero|vm_compute; reflexivity]]|].
  split; [repeat split; vm_compute; reflexivity|].
  apply (populateRings_zero_latency_in_no_ring ["p"%string] tableP0
           tableP0_populated "p"%string Hbounds Hzero).
  vm_compute; reflexivity.
Defined.

(** C5: in scenario A the range bounds are 0, 10ms, 20ms and 40ms and a
    peer at 25ms is put in ring 2; the bands should be closed below and
    open above.  In the code they are open below and closed above: a peer
    at exactly 20ms is put in ring 1, not in ring 2 which that bound
    opens, and a peer at exactly 40ms in ring 2, not in ring 3. *)
Theorem scenarioA_boundary_latency_lower_ring :
  (∀ probe, newLatRanges (scenarioA probe)
            = [0; 10 * Millisecond; 20 * Millisecond; 40 * Millisecond]) ∧
  rings_of (populated [("p"%string, 25 * Millisecond)])
    = Ok [[]; []; ["p"%string]; []] ∧
  rings_of (populated [("p"%string, 20 * Millisecond)])
    = Ok [[]; ["p"%string]; []; []] ∧
  rings_of (populated [("p"%string, 40 * Millisecond)])
    = Ok [[]; []; ["p"%string]; []].
Proof. repeat split; vm_compute; reflexivity. Qed.

(** *** Add *)

(** X9: [Add] of an unknown peer whose probe succeeds makes the table one
    larger and the peer known, and leaves the rings as they are. *)
Lemma Add_Size {M} `{Metrics M} pid (r : ringsRoutingTable M) latency :
  peers r !! pid = None →
  LatencyProbFn (conf r) pid = inl latency →
  Size (Add pid r) = Size r + 1 ∧ map_get (peers (Add pid r)) pid = true ∧
  rings (Add pid r) = rings r.
Proof.
  intros Hnew Hprobe. unfold Add, map_get, Size. rewrite Hnew; simpl.
  rewrite Hprobe; simpl. rewrite map_size_insert_None by done.
  rewrite lookup_insert_eq. split; [lia|done].
Qed.

Lemma Add_Size_witness :
  (peers emptyB !! "a"%string = None ∧
   LatencyProbFn (conf emptyB) "a" = inl (5 * Millisecond)) ∧
  Size (Add "a" emptyB) = Size emptyB + 1 ∧
  map_get (peers (Add "a" emptyB)) "a" = true ∧
  rings (Add "a" emptyB) = rings emptyB.
Proof.
  split; [split; vm_compute; reflexivity|].
  apply (Add_Size "a"%string emptyB (5 * Millisecond));
    vm_compute; reflexivity.
Defined.

(** [Add] of a known peer changes nothing. *)
Lemma Add_known {M} `{Metrics M} pid (r : ringsRoutingTable M) :
  map_get (peers r) pid = true → Add pid r = r.
Proof. intros Hk. unfold Add. by rewrite Hk. Qed.

(** [Add] with a failing probe changes nothing. *)
Lemma Add_probe_failure {M} `{Metrics M} pid (r : ringsRoutingTable M) err :
  LatencyProbFn (conf r) pid = inr err → Add pid r = r.
Proof. intros Hp. unfold Add. rewrite Hp. by destruct (map_get _ _). Qed.

(** *** Shutdown *)

(** C6, as the code has it: [Shutdown] never blocks; it closes the
    shutdown channel when that is still open, and panics when the channel
    has been closed before. *)
Theorem Shutdown_closes_or_panics {M} `{Metrics M} (r : ringsRoutingTable M) :
  Shutdown r ≠ Blocked ∧
  Shutdown r =
    if chan_closed (shutdown r) then Panic "close of closed channel"
    else Ok {| conf := conf r; peers := peers r; rings := rings r;
               latRanges := latRanges r; metrics := metrics r;
               shutdown := mkChan true |}.
Proof.
  unfold Shutdown, close. destruct (chan_closed (shutdown r)); simpl; done.
Qed.

(** C6 fails on the code: the second call of [Shutdown] on a table
    panics. *)
Lemma Shutdown_twice_panics :
  Shutdown default_table ≫= Shutdown ≠ Blocked ∧
  ¬ is_Ok (Shutdown default_table ≫= Shutdown) ∧
  Shutdown default_table ≫= Shutdown = Panic "close of closed channel".
Proof.
  split; [done|]. split; [|reflexivity].
  intros [r Hr]. vm_compute in Hr. discriminate.
Qed.

(** *** The background goroutine *)

Lemma strict_background_step {M} `{Metrics M} :
  strict (background_step (M:=M)).
Proof. by split. Qed.

(** Once the goroutine has returned no event changes anything. *)
Lemma background_step_Returned {M} `{Metrics M} (s : background M) ev :
  bg_phase s = Returned → background_step (Ok s) ev = Ok s.
Proof. intros Hs. unfold background_step; simpl. by rewrite Hs. Qed.

(** Every step out of the [select] ends the goroutine. *)
Lemma background_step_returns {M} `{Metrics M} (s s' : background M) ev :
  bg_phase s = Selecting → background_step (Ok s) ev = Ok s' →
  bg_phase s' = Returned ∧ (bg_runs s' ≤ S (bg_runs s))%nat.
Proof.
  intros Hs. unfold background_step; simpl. rewrite Hs.
  destruct ev as [d|].
  - destruct (refreshLatency _ _ _) as [r1| |]; simpl; [|done..].
    destruct (populateRings _ _) as [r2| |]; simpl; [|done..].
    intros [= <-]; simpl. split; [done|lia].
  - destruct (recv _); simpl; [|done..].
    intros [= <-]; simpl. split; [done|lia].
Qed.

(** C3: the refresh body should run once per sample period for as long
    as the table is not shut down.  The goroutine of the code holds one
    [select] and no loop: whatever happens, the body runs at most once;
    after two sample periods without shutdown it has run once, and the
    goroutine has returned. *)
Theorem background_runs_body_at_most_once :
  (∀ M (HM : Metrics M) (r : ringsRoutingTable M) evs,
     match run_background evs (start_background r) with
     | Ok s => (bg_runs s ≤ 1)%nat
     | _ => True
     end) ∧
  ∃ s, run_background [TimerFired no_draws; TimerFired no_draws]
         (start_background default_table) = Ok s ∧
       bg_runs s = 1%nat ∧ bg_phase s = Returned.
Proof.
  split.
  - intros M HM r evs.
    destruct (run_background _ _) as [s| |] eqn:Hrun; [|done..].
    pose (P := fun s : background M =>
      (bg_phase s = Selecting ∧ bg_runs s = 0%nat) ∨
      (bg_phase s = Returned ∧ (bg_runs s ≤ 1)%nat)).
    assert (P s) as [[_ ->]|[_ ?]]; [|lia|done].
    revert Hrun. unfold run_background.
    apply (foldl_Ok_ind _ P); [apply strict_background_step| |by left].
    intros s0 ev s1 _ [[Hsel Hruns]|[Hret Hruns]] Hstep.
    + apply background_step_returns in Hstep as [? ?]; [|done].
      right. split; [done|lia].
    + rewrite background_step_Returned in Hstep by done.
      injection Hstep as <-. by right.
  - eexists. split; [vm_compute; reflexivity|]. split; reflexivity.
Qed.

(** *** Removal from a ring *)

(** A cell that holds another peer is passed over. *)
Lemma remove_iter_other pid (arr : list PeerID) len i x :
  arr !! i = Some x → x ≠ pid →
  remove_iter pid (Ok (arr, len)) i = Ok (arr, len).
Proof.
  intros Hx Hne. unfold remove_iter; simpl. by rewrite Hx, decide_False.
Qed.

(** A cell that holds the peer is cut out of the slice. *)
Lemma remove_iter_hit pid (arr : list PeerID) len i :
  arr !! i = Some pid → (i + 1 ≤ len)%nat →
  remove_iter pid (Ok (arr, len)) i
  = Ok (take i arr ++ drop (i + 1) (take len arr) ++ drop (len - 1) arr,
        (len - 1)%nat).
Proof.
  intros Hx Hi. unfold remove_iter, remove_at; simpl.
  by rewrite Hx, !decide_True.
Qed.

(** Cells that do not hold the peer leave the loop state as it is. *)
Lemma foldl_remove_iter_skip pid (arr : list PeerID) len idxs :
  (∀ i, i ∈ idxs → ∃ x, arr !! i = Some x ∧ x ≠ pid) →
  foldl (remove_iter pid) (Ok (arr, len)) idxs = Ok (arr, len).
Proof.
  induction idxs as [|i idxs IH]; intros Hskip; cbn [foldl]; [done|].
  destruct (Hskip i) as (x & Hx & Hne); [apply list_elem_of_here|].
  rewrite (remove_iter_other _ _ _ _ x) by done.
  apply IH. intros j Hj. apply Hskip. by apply list_elem_of_further.
Qed.

(** A ring that does not hold the peer is left as it is. *)
Lemma ring_Remove_absent pid (l : list PeerID) :
  pid ∉ l → ring_Remove pid (mkRing l) = Ok (mkRing l).
Proof.
  intros Hpid. unfold ring_Remove; simpl.
  rewrite foldl_remove_iter_skip; simpl.
  - by rewrite firstn_all.
  - intros i [_ Hi]%elem_of_seq.
    destruct (lookup_lt_is_Some_2 l i) as [x Hx]; [lia|].
    exists x. split; [done|]. intros ->.
    apply Hpid. by eapply list_elem_of_lookup_2.
Qed.

(** The one occurrence of a peer is taken out of the ring. *)
Lemma ring_Remove_once pid (l1 l2 : list PeerID) :
  pid ∉ l1 → pid ∉ l2 →
  ring_Remove pid (mkRing (l1 ++ pid :: l2)) = Ok (mkRing (l1 ++ l2)).
Proof.
  intros H1 H2. unfold ring_Remove; simpl.
  rewrite length_app; cbn [length].
  rewrite seq_app, foldl_app; cbn [seq foldl Nat.add].
  rewrite foldl_remove_iter_skip.
  2:{ intros i [_ Hi]%elem_of_seq.
      destruct (lookup_lt_is_Some_2 l1 i) as [x Hx]; [lia|].
      exists x. rewrite lookup_app_l by lia. split; [done|]. intros ->.
      apply H1. by eapply list_elem_of_lookup_2. }
  rewrite remove_iter_hit by (by rewrite ?list_lookup_middle || lia).
  set (arr := l1 ++ pid :: l2).
  assert (take (length l1) arr = l1) as -> by apply take_app_length.
  assert (take (length l1 + S (length l2)) arr = arr) as ->.
  { apply take_ge. unfold arr. rewrite length_app; simpl. lia. }
  assert (drop (length l1 + 1) arr = l2) as ->.
  { unfold arr. rewrite drop_app_ge by lia.
    by replace (length l1 + 1 - length l1)%nat with 1%nat by lia. }
  assert (drop (length l1 + S (length l2) - 1) arr
          = drop (length l2) (pid :: l2)) as ->.
  { unfold arr. rewrite drop_app_ge by lia. f_equal. lia. }
  replace (length l1 + S (length l2) - 1)%nat
    with (length l1 + length l2)%nat by lia.
  clear arr.
  destruct l2 as [|y l2 _] using rev_ind.
  - simpl. by rewrite Nat.add_0_r, take_app_length, app_nil_r.
  - assert (drop (length (l2 ++ [y])) (pid :: l2 ++ [y]) = [y]) as ->.
    { rewrite app_comm_cons. apply drop_app_length'.
      rewrite length_app; simpl. lia. }
    rewrite foldl_remove_iter_skip; simpl.
    + rewrite (app_assoc l1 (l2 ++ [y]) [y]).
      rewrite take_app_length'; [done|]. rewrite !length_app; simpl; lia.
    + intros i [Hlo Hi]%elem_of_seq. rewrite length_app in Hi; simpl in Hi.
      destruct (lookup_lt_is_Some_2 (l1 ++ (l2 ++ [y]) ++ [y]) i) as [x Hx].
      { rewrite !length_app; simpl. lia. }
      exists x. split; [done|]. intros ->.
      apply list_elem_of_lookup_2 in Hx.
      rewrite !elem_of_app, !list_elem_of_singleton in Hx.
      rewrite elem_of_app, list_elem_of_singleton in H2. tauto.
Qed.

(** On a ring without duplicates [Remove] takes the peer out. *)
Lemma ring_Remove_NoDup pid (l : list PeerID) :
  NoDup l →
  ring_Remove pid (mkRing l) = Ok (mkRing (filter (fun x => x ≠ pid) l)).
Proof.
  intros Hl.
  assert (∀ k : list PeerID, pid ∉ k → filter (fun x => x ≠ pid) k = k) as Hid.
  { intros k Hk. induction k as [|x k IH]; [done|].
    rewrite not_elem_of_cons in Hk. destruct Hk as [Hx Hk].
    rewrite filter_cons_True by done. by rewrite IH. }
  destruct (decide (pid ∈ l)) as [Hin|Hout].
  - apply list_elem_of_split in Hin as (l1 & l2 & ->).
    apply NoDup_app in Hl as (_ & Hdisj & Hl2).
    apply NoDup_cons in Hl2 as [H2 _].
    assert (pid ∉ l1) as H1.
    { intros Hp. apply (Hdisj _ Hp). apply list_elem_of_here. }
    rewrite ring_Remove_once by done.
    rewrite filter_app, filter_cons_False by (intros Hne; by apply Hne).
    by rewrite !Hid.
  - rewrite ring_Remove_absent by done. by rewrite Hid.
Qed.

(** [Remove] on duplicate-free rings takes the peer out of each. *)
Lemma remove_from_rings_NoDup pid rs :
  duplicate_free rs → remove_from_rings pid rs = Ok (without pid <$> rs).
Proof.
  induction 1 as [|[l] rs Hl _ IH]; simpl; [done|].
  simpl in Hl. rewrite ring_Remove_NoDup by done. simpl. by rewrite IH.
Qed.

(** Taking a peer out twice is taking it out once. *)
Lemma without_idemp pid rg : without pid (without pid rg) = without pid rg.
Proof.
  unfold without; simpl. f_equal. by apply list_filter_filter_l.
Qed.

(** Taking a peer out keeps rings duplicate-free. *)
Lemma duplicate_free_without pid rs :
  duplicate_free rs → duplicate_free (without pid <$> rs).
Proof.
  unfold duplicate_free. rewrite Forall_fmap. intros Hrs.
  eapply Forall_impl; [exact Hrs|].
  intros rg Hrg; simpl. by apply NoDup_filter.
Qed.






(** *** Remove and the latency estimator *)




(** X3: on a table with duplicate-free rings a second [Remove] of a peer
    changes nothing: the first one has taken the peer out of the peer set
    and of every ring. *)
Lemma Remove_idempotent {M} `{Metrics M} pid (r : ringsRoutingTable M) :
  duplicate_free (rings r) →
  ∃ r1, Remove pid r = Ok r1 ∧ Remove pid r1 = Ok r1 ∧
        map_get (peers r1) pid = false ∧
        rings_holding pid (rings r1) = [].
Proof.
  intros Hr. unfold Remove.
  rewrite remove_from_rings_NoDup by done. simpl.
  eexists. split; [done|]. simpl.
  rewrite remove_from_rings_NoDup by (by apply duplicate_free_without). simpl.
  split.
  { f_equal. f_equal.
    - apply delete_delete_eq.
    - rewrite <- list_fmap_compose. apply list_fmap_ext.
      intros _ rg _. apply without_idemp. }
  split.
  { unfold map_get. by rewrite lookup_delete_eq. }
  apply rings_holding_nil. rewrite Forall_fmap. apply Forall_true.
  intros rg; simpl. rewrite list_elem_of_filter. tauto.
Qed.

Lemma Remove_idempotent_witness :
  duplicate_free (rings tableB) ∧
  ∃ r1, Remove "a" tableB = Ok r1 ∧ Remove "a" r1 = Ok r1 ∧
        map_get (peers r1) "a" = false ∧
        rings_holding "a" (rings r1) = [].
Proof.
  assert (duplicate_free (rings tableB)) as Hdf.
  { unfold duplicate_free. apply (bool_decide_unpack _). vm_compute. exact I. }
  split; [exact Hdf|].
  apply (Remove_idempotent "a"%string tableB Hdf).
Defined.

(** *** Recommend *)

(** [exclude[pid]] after the peers of a list have been added. *)
Lemma map_get_exclude_all exclude l pid :
  map_get (exclude_all exclude l) pid = true ↔
  map_get exclude pid = true ∨ pid ∈ l.
Proof.
  unfold exclude_all. revert exclude.
  induction l as [|x l IH]; intros exclude; simpl.
  - rewrite elem_of_nil. tauto.
  - rewrite IH, elem_of_cons. unfold map_get.
    destruct (decide (x = pid)) as [->|Hne].
    + rewrite lookup_insert_eq; simpl. tauto.
    + rewrite lookup_insert_ne by done.
      assert (pid = x ↔ False) as -> by (split; [congruence|done]). tauto.
Qed.

Lemma map_get_exclude_list l pid :
  map_get (exclude_all ∅ l) pid = true ↔ pid ∈ l.
Proof.
  rewrite map_get_exclude_all. unfold map_get. rewrite lookup_empty; simpl.
  split; [intros [?|?]; done|by right].
Qed.

(** The walk over a permutation appends peers of the list that are not
    excluded, at most one for each index visited. *)
Lemma foldl_walk_perm peers exclude idxs acc res :
  foldl (walk_perm peers exclude) (Ok acc) idxs = Ok res →
  ∃ got, res = acc ++ got ∧ (length got ≤ length idxs)%nat ∧
         Forall (fun pid => pid ∈ peers ∧ map_get exclude pid = false) got.
Proof.
  revert acc. induction idxs as [|j idxs IH]; intros acc; cbn [foldl].
  - intros [= <-]. exists []. by rewrite app_nil_r.
  - unfold walk_perm at 2; simpl.
    destruct (peers !! j) as [pid|] eqn:Hj;
      [|by rewrite foldl_Panic by apply strict_walk_perm].
    destruct (map_get exclude pid) eqn:Hex.
    + intros (got & -> & Hlen & Hgot)%IH. exists got.
      split; [done|]. split; [simpl; lia|done].
    + intros (got & -> & Hlen & Hgot)%IH. exists (pid :: got).
      split; [by rewrite <- app_assoc|]. split; [simpl; lia|].
      apply Forall_cons. split; [|done].
      split; [by eapply list_elem_of_lookup_2|done].
Qed.

(** [pick] answers at most [count] peers, all of the list and none
    excluded. *)
Lemma pick_Ok perm count exclude peers res :
  pick perm count exclude peers = Ok res →
  (length res ≤ Z.to_nat count)%nat ∧
  Forall (fun pid => pid ∈ peers ∧ map_get exclude pid = false) res.
Proof.
  unfold pick. intros (got & -> & Hlen & Hgot)%foldl_walk_perm.
  rewrite length_take in Hlen. simpl. split; [lia|done].
Qed.

Lemma total_insert nodes i c :
  nodes !! i = Some c → total (<[i := c + 1]> nodes) = total nodes + 1.
Proof.
  revert i. induction nodes as [|x nodes IH]; intros [|i]; simpl; try done.
  - intros [= ->]. lia.
  - intros Hi. rewrite IH by done. lia.
Qed.

Lemma total_cons c nodes : total (c :: nodes) = c + total nodes.
Proof. done. Qed.

Lemma total_replicate n : total (replicate n 0) = 0.
Proof. induction n as [|n IH]; simpl; [done|]. by rewrite IH. Qed.

(** The round-robin loop hands out one slot in each round. *)
Lemma foldl_round_robin n rounds nodes j nodes' j' :
  foldl (round_robin n) (Ok (nodes, j)) rounds = Ok (nodes', j') →
  total nodes' = total nodes + Z.of_nat (length rounds) ∧
  (Forall (fun c => 0 ≤ c) nodes → Forall (fun c => 0 ≤ c) nodes') ∧
  length nodes' = length nodes.
Proof.
  revert nodes j. induction rounds as [|x rounds IH]; intros nodes j; cbn [foldl].
  - intros [= <- <-]. split; [simpl; lia|done].
  - unfold round_robin at 2; simpl.
    destruct (nodes !! Z.to_nat j) as [c|] eqn:Hj.
    2:{ rewrite foldl_Panic; [done|]. split; [done|]. done. }
    intros (Htot & Hpos & Hlen)%IH.
    rewrite total_insert in Htot by done. rewrite length_insert in Hlen.
    split; [rewrite Htot; simpl length; lia|]. split; [|done].
    intros Hnodes. apply Hpos. apply Forall_insert; [done|].
    rewrite Forall_lookup in Hnodes. specialize (Hnodes _ _ Hj). simpl in *. lia.
Qed.

(** The loop over the quotas appends, for each ring, at most its quota of
    peers, none of them excluded. *)
Lemma from_ring_Ok rnd exclude rs acc i c res :
  from_ring rnd exclude rs (Ok acc) (i, c) = Ok res →
  ∃ rg got, rs !! i = Some rg ∧
            ring_Recommend (rnd i) c exclude rg = Ok got ∧ res = acc ++ got.
Proof.
  unfold from_ring; simpl.
  destruct (rs !! i) as [rg|]; [|done].
  destruct (ring_Recommend (rnd i) c exclude rg) as [got| |] eqn:Hrec;
    simpl; [|done..].
  intros [= <-]. by exists rg, got.
Qed.

Lemma foldl_from_ring rnd exclude rs ics acc res :
  foldl (from_ring rnd exclude rs) (Ok acc) ics = Ok res →
  Forall (fun ic => 0 ≤ ic.2) ics →
  ∃ got, res = acc ++ got ∧ Z.of_nat (length got) ≤ total (ics.*2) ∧
         Forall (fun pid => (∃ rg, rg ∈ rs ∧ pid ∈ ring_peers rg) ∧
                            map_get exclude pid = false) got.
Proof.
  revert acc. induction ics as [|[i c] ics IH]; intros acc; cbn [foldl].
  - intros [= <-] _. exists []. by rewrite app_nil_r.
  - intros Hrun Hpos. apply Forall_cons in Hpos as [Hc Hpos].
    destruct (from_ring rnd exclude rs (Ok acc) (i, c)) as [acc1| |] eqn:Hstep.
    2:{ rewrite foldl_Panic in Hrun; [done|]. by split. }
    2:{ rewrite foldl_Blocked in Hrun; [done|]. by split. }
    apply from_ring_Ok in Hstep as (rg & got1 & Hrg & Hrec & ->).
    apply pick_Ok in Hrec as [Hlen1 Hgot1].
    apply IH in Hrun as (got & -> & Hlen & Hgot); [|done].
    exists (got1 ++ got). split; [by rewrite <- app_assoc|].
    split.
    + rewrite fmap_cons, total_cons, length_app. simpl in *. lia.
    + apply Forall_app. split; [|done].
      eapply Forall_impl; [exact Hgot1|]. intros pid [? ?].
      split; [|done]. exists rg. split; [|done].
      by eapply list_elem_of_lookup_2.
Qed.

(** [Recommend] answers at most [count] peers and none of the exclude
    list. *)
Lemma Recommend_at_most {M} `{Metrics M} rnd order count excludeList
    (r : ringsRoutingTable M) res :
  0 ≤ count →
  Recommend rnd order count excludeList r = Ok res →
  Z.of_nat (length res) ≤ count ∧
  Forall (fun pid => (pid ∉ excludeList) ∧
                     ((∃ rg, rg ∈ rings r ∧ pid ∈ ring_peers rg) ∨
                      pid ∈ order)) res.
Proof.
  intros Hcount. unfold Recommend, make_ints.
  destruct (RingsCount (conf r) <? 0); simpl; [done|].
  destruct (foldl (round_robin _) _ _) as [[nodes j]| |] eqn:Hrr; simpl; [|done..].
  apply foldl_round_robin in Hrr as (Htot & Hpos & Hlen).
  rewrite total_replicate, length_seq in Htot.
  specialize (Hpos (Forall_replicate _ _ _ (Z.le_refl 0))).
  destruct (foldl (from_ring _ _ _) _ _) as [recommended| |] eqn:Hfr; simpl; [|done..].
  apply foldl_from_ring in Hfr as (got & -> & Hlen1 & Hgot).
  2:{ apply Forall_forall. intros [i c] Hic. simpl.
      apply elem_of_zip_r in Hic. rewrite Forall_forall in Hpos. by apply Hpos. }
  rewrite snd_zip in Hlen1 by (rewrite length_seq; lia).
  simpl in *.
  assert (Forall (fun pid => (pid ∉ excludeList) ∧
            ((∃ rg, rg ∈ rings r ∧ pid ∈ ring_peers rg) ∨ pid ∈ order)) got)
    as Hgot'.
  { eapply Forall_impl; [exact Hgot|]. intros pid [Hrg Hpid].
    split; [|by left]. intros Hin.
    apply map_get_exclude_list in Hin. congruence. }
  destruct (Z.of_nat (length got) <? count) eqn:Hshort.
  - unfold sample.
    destruct (pick _ _ _ _) as [rest| |] eqn:Hpick; simpl; [|done..].
    intros [= <-]. apply pick_Ok in Hpick as [Hlen2 Hrest].
    apply Z.ltb_lt in Hshort. split.
    + rewrite length_app. lia.
    + apply Forall_app. split; [done|].
      eapply Forall_impl; [exact Hrest|]. intros pid [Hord Hpid].
      split; [|by right]. intros Hin.
      assert (map_get (exclude_all (exclude_all ∅ excludeList) got) pid = true)
        as Htrue; [|congruence].
      apply map_get_exclude_all. left. by apply map_get_exclude_list.
  - intros [= <-]. split; [lia|done].
Qed.

(** The order of a map range holds the keys of the map. *)
Lemma is_range_of_elem_of (m : gmap PeerID bool) order pid :
  is_range_of m order → pid ∈ order ↔ is_Some (m !! pid).
Proof.
  unfold is_range_of. intros ->. rewrite list_elem_of_fmap. split.
  - intros ([k v] & -> & Hkv). apply elem_of_map_to_list in Hkv. by eexists.
  - intros [v Hv]. exists (pid, v). split; [done|].
    by apply elem_of_map_to_list.
Qed.

(** X5: after [Remove] of a peer from a table with duplicate-free rings no
    [Recommend] answers that peer. *)
Lemma Recommend_after_Remove {M} `{Metrics M} pid (r r1 : ringsRoutingTable M)
    rnd order count excludeList res :
  duplicate_free (rings r) →
  Remove pid r = Ok r1 →
  is_range_of (peers r1) order →
  0 ≤ count →
  Recommend rnd order count excludeList r1 = Ok res →
  pid ∉ res.
Proof.
  intros Hdup Hrem Horder Hcount Hrec.
  apply Recommend_at_most in Hrec as [_ Hres]; [|done].
  revert Hrem. unfold Remove.
  rewrite remove_from_rings_NoDup by done; simpl. intros [= <-].
  simpl in *. intros Hin. rewrite Forall_forall in Hres.
  destruct (Hres pid Hin) as [_ [(rg & Hrg & Hpid)|Hpid]].
  - apply list_elem_of_fmap in Hrg as (rg0 & -> & _).
    unfold without in Hpid; simpl in Hpid.
    apply list_elem_of_filter in Hpid as [Hne _]. by apply Hne.
  - apply (is_range_of_elem_of _ _ pid Horder) in Hpid as [v Hv].
    by rewrite lookup_delete_eq in Hv.
Qed.

Lemma Recommend_after_Remove_witness :
  (duplicate_free (rings tableB) ∧
   Remove "a" tableB = Ok tableB_without_a ∧
   is_range_of (peers tableB_without_a) ["c"; "b"]%string ∧
   0 ≤ 2 ∧
   Recommend drawsB_without_a ["c"; "b"]%string 2 [] tableB_without_a
   = Ok ["b"; "c"]%string) ∧
  "a"%string ∉ ["b"; "c"]%string.
Proof.
  assert (duplicate_free (rings tableB)) as Hdf.
  { unfold duplicate_free. apply (bool_decide_unpack _). vm_compute. exact I. }
  assert (is_range_of (peers tableB_without_a) ["c"; "b"]%string) as Hrange.
  { unfold is_range_of.
    assert ((map_to_list (peers tableB_without_a)).*1 = ["c"; "b"]%string)
      as -> by (vm_compute; reflexivity).
    reflexivity. }
  split.
  { split; [exact Hdf|]. split; [vm_compute; reflexivity|].
    split; [exact Hrange|]. split; [lia|vm_compute; reflexivity]. }
  apply (Recommend_after_Remove "a"%string tableB tableB_without_a
           drawsB_without_a ["c"; "b"]%string 2 [] ["b"; "c"]%string Hdf);
    [vm_compute; reflexivity|exact Hrange|lia|vm_compute; reflexivity].
Defined.

(** X4: [Recommend] answers at most [count] peers, none of them in the
    exclude list, and each of them held by a ring or visited by the fallback
    sample. *)
Theorem Recommend_never_excluded_at_most_count {M} `{Metrics M} rnd order
    count excludeList (r : ringsRoutingTable M) res :
  0 ≤ count →
  Recommend rnd order count excludeList r = Ok res →
  Z.of_nat (length res) ≤ count ∧
  Forall (fun pid => (pid ∉ excludeList) ∧
                     ((∃ rg, rg ∈ rings r ∧ pid ∈ ring_peers rg) ∨
                      pid ∈ order)) res.
Proof. apply Recommend_at_most. Qed.

Lemma Recommend_never_excluded_at_most_count_witness :
  (0 ≤ 3 ∧
   Recommend drawsB ["a"; "b"; "c"]%string 3 [] tableB
   = Ok ["a"; "b"]%string) ∧
  Z.of_nat (length ["a"; "b"]%string) ≤ 3 ∧
  Forall (fun pid => (pid ∉ ([] : list string)) ∧
            ((∃ rg, rg ∈ rings tableB ∧ pid ∈ ring_peers rg) ∨
             pid ∈ ["a"; "b"; "c"]%string)) ["a"; "b"]%string.
Proof.
  split; [split; [lia|vm_compute; reflexivity]|].
  apply (Recommend_never_excluded_at_most_count drawsB ["a"; "b"; "c"]%string 3 [] tableB
           ["a"; "b"]%string); [lia|vm_compute; reflexivity].
Defined.

(** C1: with at least [count] known peers outside the exclusions,
    [Recommend] should return [count] peers whatever the random draws.
    In the table of scenario B (a in ring 0, b in ring 1, c in ring 3) the
    call [Recommend(1, [a])] has two peers to choose from; ring 0 spends
    its one slot on the excluded a, and when the fallback sample draws a
    first it spends its one slot on a as well: the answer is empty. *)
Theorem Recommend_short_of_count :
  let order := ["a"; "b"; "c"]%string in
  ring_peers <$> rings tableB = [["a"]; ["b"]; []; ["c"]]%string ∧
  is_range_of (peers tableB) order ∧
  (∀ i rg, rings tableB !! i = Some rg →
           is_perm (length (ring_peers rg)) (drawsB i)) ∧
  is_perm (length order) (drawsB 4) ∧
  eligible order ["a"%string] = ["b"; "c"]%string ∧
  Recommend drawsB order 1 ["a"%string] tableB = Ok [].
Proof.
  cbv zeta. split; [vm_compute; reflexivity|]. split.
  { unfold is_range_of.
    assert ((map_to_list (peers tableB)).*1 = ["c"; "a"; "b"]%string) as ->
      by (vm_compute; reflexivity).
    apply (Permutation_app_comm ["a"; "b"]%string ["c"%string]). }
  split.
  { assert (rings tableB
            = [mkRing ["a"%string]; mkRing ["b"%string]; mkRing [];
               mkRing ["c"%string]]) as -> by (vm_compute; reflexivity).
    intros i rg Hi. unfold is_perm.
    destruct i as [|[|[|[|i]]]]; simpl in Hi;
      [injection Hi as <-; reflexivity..|discriminate]. }
  split; [unfold is_perm; reflexivity|]. split; vm_compute; reflexivity.
Qed.

(** *** The shape of the table *)

(** [Remove] keeps the number of rings. *)
Lemma length_remove_from_rings pid rs rs' :
  remove_from_rings pid rs = Ok rs' → length rs' = length rs.
Proof.
  revert rs'. induction rs as [|rg rs IH]; intros rs'; simpl.
  - by intros [= <-].
  - destruct (ring_Remove pid rg) as [rg'| |]; simpl; [|done..].
    destruct (remove_from_rings pid rs) as [rs1| |]; simpl; [|done..].
    intros [= <-]. simpl. by rewrite (IH rs1).
Qed.

(** What [refreshLatency] leaves as it is. *)
Lemma refreshLatency_frame {M} `{Metrics M} order perm
    (r r' : ringsRoutingTable M) :
  refreshLatency order perm r = Ok r' →
  conf r' = conf r ∧ peers r' = peers r ∧ rings r' = rings r ∧
  latRanges r' = latRanges r ∧ shutdown r' = shutdown r.
Proof.
  unfold refreshLatency.
  destruct (foldl _ _ _) as [smp| |]; simpl; [|done..].
  by intros [= <-].
Qed.

(** X10: a table with at least one ring, and with as many rings and range
    bounds as its configuration counts, stays so under [Add], [Remove]
    and [refreshLatency], and a repopulation pass on it does not panic and
    leaves it so. *)
Theorem well_formed_kept {M} `{Metrics M} (r : ringsRoutingTable M) pid order
    perm :
  well_formed r →
  well_formed (Add pid r) ∧
  (∀ r', Remove pid r = Ok r' → well_formed r') ∧
  (∀ r', refreshLatency order perm r = Ok r' → well_formed r') ∧
  ∃ r', populateRings order r = Ok r' ∧ well_formed r'.
Proof.
  intros (Hn & Hrings & Hlat). split; [|split; [|split]].
  - unfold Add. destruct (map_get (peers r) pid); [done|].
    by destruct (LatencyProbFn (conf r) pid).
  - intros r'. unfold Remove.
    destruct (remove_from_rings pid (rings r)) as [rs| |] eqn:Hrs; simpl;
      [|done..].
    intros [= <-]. unfold well_formed; simpl.
    by rewrite (length_remove_from_rings _ _ _ Hrs).
  - intros r' (Hc & _ & Hr & Hl & _)%refreshLatency_frame.
    unfold well_formed. by rewrite Hc, Hr, Hl.
  - destruct (populateRings_Ok order r) as [r' Hrun]; [lia|].
    exists r'. split; [done|].
    apply populateRings_rings in Hrun as (Hr & _ & _ & Hl & Hc & _).
    unfold well_formed. rewrite Hc, Hl, Hr, length_rings_by_index. done.
Qed.

Lemma well_formed_kept_witness :
  well_formed tableB ∧
  well_formed (Add "a" tableB) ∧
  (∀ r', Remove "a" tableB = Ok r' → well_formed r') ∧
  (∀ r', refreshLatency ["a"; "b"; "c"]%string [0; 1; 2]%nat tableB = Ok r' →
         well_formed r') ∧
  ∃ r', populateRings ["a"; "b"; "c"]%string tableB = Ok r' ∧ well_formed r'.
Proof.
  split; [repeat split; vm_compute; (reflexivity || discriminate)|].
  apply (well_formed_kept tableB "a"%string ["a"; "b"; "c"]%string
           [0; 1; 2]%nat).
  repeat split; vm_compute; (reflexivity || discriminate).
Defined.

(** X11: asked for at least one ring, the constructor makes a table with
    as many rings and range bounds as asked for, no peer, zero as the first
    bound and every ring empty. *)
Lemma NewRingsRoutingTable_well_formed {M} `{Metrics M} c :
  1 ≤ RingsCount c →
  well_formed (NewRingsRoutingTable (M:=M) c) ∧
  Size (NewRingsRoutingTable (M:=M) c) = 0 ∧
  latRanges (NewRingsRoutingTable (M:=M) c) !! 0%nat = Some 0 ∧
  Forall (fun rg => ring_peers rg = []) (rings (NewRingsRoutingTable (M:=M) c)).
Proof.
  intros Hn. split; [|split; [|split]].
  - unfold well_formed; simpl. split; [done|].
    unfold newRings. rewrite length_replicate, length_growLatRanges.
    split; [done|lia].
  - done.
  - done.
  - simpl. unfold newRings. by apply Forall_replicate.
Qed.

Lemma NewRingsRoutingTable_well_formed_witness :
  1 ≤ RingsCount (scenarioA (probe_table scenarioB)) ∧
  well_formed emptyB ∧ Size emptyB = 0 ∧
  latRanges emptyB !! 0%nat = Some 0 ∧
  Forall (fun rg => ring_peers rg = []) (rings emptyB).
Proof.
  split; [vm_compute; discriminate|].
  apply (NewRingsRoutingTable_well_formed (M:=ewma_store)
           (scenarioA (probe_table scenarioB))).
  vm_compute; discriminate.
Defined.

(** Without rings the loop of [populateRings] panics at the first peer
    that is given an index. *)
Lemma foldl_place_no_rings {M} `{Metrics M} (m : M) lr order :
  (∃ pid, pid ∈ order ∧ is_Some (find_ring (LatencyEWMA m pid) lr (length lr))) →
  foldl (place m lr) (Ok []) order = Panic "index out of range".
Proof.
  induction order as [|x order IH]; intros (pid & Hpid & Hidx).
  - by apply elem_of_nil in Hpid.
  - cbn [foldl]. unfold place at 2; simpl.
    destruct (find_ring (LatencyEWMA m x) lr (length lr)) as [i|] eqn:Hx.
    + simpl. by rewrite foldl_Panic by apply strict_place.
    + apply IH. exists pid. split; [|done].
      apply elem_of_cons in Hpid as [->|Hpid]; [|done].
      rewrite Hx in Hidx. by destruct Hidx.
Qed.

(** X12: a table made with a ring count of zero or less has one range
    bound and no ring, and a repopulation pass on a table without rings
    panics as soon as it visits a peer whose latency estimate exceeds some
    range bound. *)
Theorem populateRings_without_rings_panics {M} `{Metrics M}
    (r : ringsRoutingTable M) order pid :
  RingsCount (conf r) ≤ 0 →
  pid ∈ order →
  is_Some (ring_index r pid) →
  populateRings order r = Panic "index out of range" ∧
  latRanges (NewRingsRoutingTable (M:=M) (conf r)) = [0] ∧
  rings (NewRingsRoutingTable (M:=M) (conf r)) = [].
Proof.
  intros Hn Hpid Hidx. split; [|split].
  - unfold populateRings, newRings.
    replace (Z.to_nat (RingsCount (conf r))) with 0%nat by lia. simpl.
    rewrite foldl_place_no_rings; [done|]. by exists pid.
  - simpl. unfold newLatRanges.
    by replace (Z.to_nat (RingsCount (conf r) - 1)) with 0%nat by lia.
  - simpl. unfold newRings.
    by replace (Z.to_nat (RingsCount (conf r))) with 0%nat by lia.
Qed.

Lemma populateRings_without_rings_panics_witness :
  (RingsCount (conf tableZ) ≤ 0 ∧
   "a"%string ∈ ["a"%string] ∧
   is_Some (ring_index tableZ "a")) ∧
  populateRings ["a"%string] tableZ = Panic "index out of range" ∧
  latRanges (NewRingsRoutingTable (M:=ewma_store) (conf tableZ)) = [0] ∧
  rings (NewRingsRoutingTable (M:=ewma_store) (conf tableZ)) = [].
Proof.
  assert (is_Some (ring_index tableZ "a")) as Hidx
    by (exists 0%nat; vm_compute; reflexivity).
  split.
  { split; [vm_compute; discriminate|]. split; [apply list_elem_of_here|done]. }
  apply (populateRings_without_rings_panics tableZ ["a"%string] "a"%string);
    [vm_compute; discriminate|apply list_elem_of_here|exact Hidx].
Defined.

(** *** Remove and Add *)

(** [Remove] from rings that do not hold the peer leaves them as they
    are. *)
Lemma remove_from_rings_absent pid rs :
  Forall (fun rg => pid ∉ ring_peers rg) rs → remove_from_rings pid rs = Ok rs.
Proof.
  induction 1 as [|[l] rs Hl _ IH]; simpl; [done|].
  simpl in Hl. rewrite ring_Remove_absent by done. simpl. by rewrite IH.
Qed.

(** X13: [Remove] of a peer that is neither in the peer set nor in a ring
    changes nothing. *)
Theorem Remove_unknown {M} `{Metrics M} pid (r : ringsRoutingTable M) :
  peers r !! pid = None →
  Forall (fun rg => pid ∉ ring_peers rg) (rings r) →
  Remove pid r = Ok r.
Proof.
  intros Hpeers Hrings. unfold Remove.
  rewrite remove_from_rings_absent by done. simpl.
  rewrite delete_id by done. by destruct r.
Qed.

Lemma Remove_unknown_witness :
  (peers tableB !! "z"%string = None ∧
   Forall (fun rg => "z"%string ∉ ring_peers rg) (rings tableB)) ∧
  Remove "z" tableB = Ok tableB.
Proof.
  assert (Forall (fun rg => "z"%string ∉ ring_peers rg) (rings tableB)) as Hrs.
  { apply (bool_decide_unpack _). vm_compute. exact I. }
  split; [split; [vm_compute; reflexivity|exact Hrs]|].
  apply (Remove_unknown "z"%string tableB); [vm_compute; reflexivity|exact Hrs].
Defined.

(** X14: [Remove] after [Add] of an unknown peer that no ring holds gives
    back the peer set, the rings and the size; the sample of the probe
    stays with the estimator. *)
Theorem Remove_after_Add {M} `{Metrics M} pid (r : ringsRoutingTable M)
    latency :
  peers r !! pid = None →
  Forall (fun rg => pid ∉ ring_peers rg) (rings r) →
  LatencyProbFn (conf r) pid = inl latency →
  ∃ r', Remove pid (Add pid r) = Ok r' ∧
        peers r' = peers r ∧ rings r' = rings r ∧ Size r' = Size r ∧
        metrics r' = RecordLatency (metrics r) pid latency.
Proof.
  intros Hpeers Hrings Hprobe. unfold Add, map_get. rewrite Hpeers; simpl.
  rewrite Hprobe. unfold Remove; simpl.
  rewrite remove_from_rings_absent by done. simpl.
  eexists. split; [done|]. simpl. unfold Size; simpl.
  rewrite delete_insert_id by done. done.
Qed.

Lemma Remove_after_Add_witness :
  (peers emptyB !! "a"%string = None ∧
   Forall (fun rg => "a"%string ∉ ring_peers rg) (rings emptyB) ∧
   LatencyProbFn (conf emptyB) "a" = inl (5 * Millisecond)) ∧
  ∃ r', Remove "a" (Add "a" emptyB) = Ok r' ∧
        peers r' = peers emptyB ∧ rings r' = rings emptyB ∧
        Size r' = Size emptyB ∧
        metrics r' = RecordLatency (metrics emptyB) "a" (5 * Millisecond).
Proof.
  assert (Forall (fun rg => "a"%string ∉ ring_peers rg) (rings emptyB)) as Hrs.
  { apply (bool_decide_unpack _). vm_compute. exact I. }
  split; [split; [vm_compute; reflexivity|split; [exact Hrs|vm_compute; reflexivity]]|].
  apply (Remove_after_Add "a"%string emptyB (5 * Millisecond));
    [vm_compute; reflexivity|exact Hrs|vm_compute; reflexivity].
Defined.

(** X15: [Remove] of a known peer from duplicate-free rings makes the
    table one smaller and leaves every other peer as it is. *)
Theorem Remove_Size {M} `{Metrics M} pid (r : ringsRoutingTable M) :
  is_Some (peers r !! pid) →
  duplicate_free (rings r) →
  ∃ r', Remove pid r = Ok r' ∧ Size r' = Size r - 1 ∧
        ∀ q, q ≠ pid → peers r' !! q = peers r !! q.
Proof.
  intros [b Hb] Hdup. unfold Remove.
  rewrite remove_from_rings_NoDup by done. simpl.
  eexists. split; [done|]. unfold Size; simpl. split.
  - rewrite map_size_delete, Hb. 
    assert (size (peers r) ≠ 0%nat); [|lia].
    intros Hz. apply map_size_empty_iff in Hz. by rewrite Hz in Hb.
  - intros q Hq. by rewrite lookup_delete_ne.
Qed.

Lemma Remove_Size_witness :
  (is_Some (peers tableB !! "a"%string) ∧ duplicate_free (rings tableB)) ∧
  ∃ r', Remove "a" tableB = Ok r' ∧ Size r' = Size tableB - 1 ∧
        ∀ q, q ≠ "a"%string → peers r' !! q = peers tableB !! q.
Proof.
  assert (is_Some (peers tableB !! "a"%string)) as Hknown
    by (exists true; vm_compute; reflexivity).
  assert (duplicate_free (rings tableB)) as Hdf.
  { unfold duplicate_free. apply (bool_decide_unpack _). vm_compute. exact I. }
  split; [by split|].
  apply (Remove_Size "a"%string tableB Hknown Hdf).
Defined.

(** X16: on a ring that does not hold the peer, [Remove] undoes [Add],
    and [Remove] alone leaves the ring as it is. *)
Theorem ring_Remove_undoes_Add pid (rg : ring) :
  pid ∉ ring_peers rg →
  ring_Remove pid (ring_Add pid rg) = Ok rg ∧ ring_Remove pid rg = Ok rg.
Proof.
  destruct rg as [l]; simpl. intros Hpid. split.
  - unfold ring_Add; simpl.
    rewrite (ring_Remove_once pid l [] Hpid (not_elem_of_nil pid)).
    by rewrite app_nil_r.
  - by apply ring_Remove_absent.
Qed.

Lemma ring_Remove_undoes_Add_witness :
  ("c"%string ∉ ring_peers (mkRing ["a"; "b"]%string)) ∧
  ring_Remove "c" (ring_Add "c" (mkRing ["a"; "b"]%string))
  = Ok (mkRing ["a"; "b"]%string) ∧
  ring_Remove "c" (mkRing ["a"; "b"]%string) = Ok (mkRing ["a"; "b"]%string).
Proof.
  assert ("c"%string ∉ ring_peers (mkRing ["a"; "b"]%string)) as Hc.
  { apply (bool_decide_unpack _). vm_compute. exact I. }
  split; [exact Hc|].
  apply (ring_Remove_undoes_Add "c"%string (mkRing ["a"; "b"]%string) Hc).
Defined.

(** *** refreshLatency *)

(** The sampling loop of [refreshLatency] takes, for each index, the peer
    at that position. *)
Lemma foldl_sample_pids pids idxs acc :
  Forall (fun j => (j < length pids)%nat) idxs →
  ∃ smp, foldl (sample_pids pids) (Ok acc) idxs = Ok (acc ++ smp) ∧
         Forall2 (fun j pid => pids !! j = Some pid) idxs smp.
Proof.
  revert acc. induction idxs as [|j idxs IH]; intros acc Hidxs; cbn [foldl].
  - exists []. split; [by rewrite app_nil_r|constructor].
  - apply Forall_cons in Hidxs as [Hj Hidxs].
    destruct (lookup_lt_is_Some_2 pids j Hj) as [pid Hpid].
    unfold sample_pids at 2; simpl. rewrite Hpid.
    destruct (IH (acc ++ [pid]) Hidxs) as (smp & -> & Hsmp).
    exists (pid :: smp). split; [by rewrite <- app_assoc|].
    by constructor.
Qed.

(** The peers at distinct positions of a list without repetition are
    distinct peers of the list. *)
Lemma sampled_NoDup (pids : list PeerID) idxs smp :
  Forall2 (fun j pid => pids !! j = Some pid) idxs smp →
  Forall (fun pid => pid ∈ pids) smp ∧
  (NoDup pids → NoDup idxs → NoDup smp).
Proof.
  induction 1 as [|j pid idxs smp Hj Hrest [IHin IHnd]].
  - split; [constructor|]. intros _ _. constructor.
  - split.
    + constructor; [by eapply list_elem_of_lookup_2|done].
    + intros Hpids [Hnotin Hidxs]%NoDup_cons.
      constructor; [|by apply IHnd].
      intros Hin. apply list_elem_of_lookup_1 in Hin as [k Hk].
      destruct (Forall2_lookup_r _ _ _ _ _ Hrest Hk) as (j' & Hj' & Hlook).
      assert (j = j') as -> by apply (NoDup_lookup pids j j' pid Hpids Hj Hlook).
      apply Hnotin. by eapply list_elem_of_lookup_2.
Qed.

(** With a permutation of the peers at hand [refreshLatency] does not
    panic; it probes the peers at the first [SampleSize] positions of the
    permutation, or at all of them when there are fewer, records what the
    probes answer, and leaves the peer set, the rings and the range bounds
    as they are. *)
Lemma refreshLatency_run {M} `{Metrics M} order perm
    (r : ringsRoutingTable M) :
  is_perm (length order) perm →
  ∃ r' smp,
    refreshLatency order perm r = Ok r' ∧
    Forall2 (fun j pid => order !! j = Some pid)
      (take (Z.to_nat (SampleSize (conf r))) perm) smp ∧
    metrics r'
    = foldl (probe_and_record (LatencyProbFn (conf r))) (metrics r) smp ∧
    length smp
    = Nat.min (Z.to_nat (SampleSize (conf r))) (length order) ∧
    Forall (fun pid => pid ∈ order) smp ∧
    (NoDup order → NoDup smp) ∧
    conf r' = conf r ∧ peers r' = peers r ∧ rings r' = rings r ∧
    latRanges r' = latRanges r ∧ shutdown r' = shutdown r.
Proof.
  intros Hperm. unfold refreshLatency.
  assert (Forall (fun j => (j < length order)%nat)
            (take (Z.to_nat (SampleSize (conf r))) perm)) as Hidxs.
  { apply Forall_take, Forall_forall. intros j Hj.
    unfold is_perm in Hperm. rewrite Hperm in Hj.
    apply elem_of_seq in Hj. lia. }
  destruct (foldl_sample_pids order _ [] Hidxs) as (smp & -> & Hsmp).
  destruct (sampled_NoDup _ _ _ Hsmp) as [Hin Hnd].
  simpl. eexists _, smp. split; [done|]. simpl.
  split; [done|]. split; [done|]. split.
  { rewrite <- (Forall2_length _ _ _ Hsmp), length_take.
    unfold is_perm in Hperm. by rewrite Hperm, length_seq. }
  split; [done|]. split; [|done].
  intros Horder. apply Hnd; [done|].
  eapply sublist_NoDup; [|apply sublist_take].
  unfold is_perm in Hperm. rewrite Hperm. apply NoDup_seq.
Qed.



(** Probes that fail change nothing at all. *)
Lemma foldl_probe_and_record_failing {M} `{Metrics M} probe (m : M) smp :
  Forall (fun pid => ∃ err, probe pid = inr err) smp →
  foldl (probe_and_record probe) m smp = m.
Proof.
  induction 1 as [|pid smp [err Herr] _ IH]; simpl; [done|].
  unfold probe_and_record at 2. by rewrite Herr.
Qed.

(** X18: when the probe fails for every peer at hand, [refreshLatency]
    leaves the table as it is: no peer is removed and no estimate
    changes. *)
Theorem refreshLatency_failing_probes {M} `{Metrics M} order perm
    (r : ringsRoutingTable M) :
  is_perm (length order) perm →
  (∀ pid, pid ∈ order → ∃ err, LatencyProbFn (conf r) pid = inr err) →
  refreshLatency order perm r = Ok r.
Proof.
  intros Hperm Hfail.
  destruct (refreshLatency_run order perm r Hperm)
    as (r' & smp & -> & _ & Hm & _ & Hsmp & _ & Hc & Hp & Hr & Hl & Hs).
  f_equal. rewrite foldl_probe_and_record_failing in Hm.
  - destruct r, r'; simpl in *. by subst.
  - eapply Forall_impl; [exact Hsmp|]. intros pid Hpid. by apply Hfail.
Qed.

Lemma refreshLatency_failing_probes_witness :
  (is_perm (length ["a"; "b"; "c"]%string) [0; 1; 2]%nat ∧
   ∀ pid, pid ∈ ["a"; "b"; "c"]%string →
          ∃ err, LatencyProbFn (conf tableB_offline) pid = inr err) ∧
  refreshLatency ["a"; "b"; "c"]%string [0; 1; 2]%nat tableB_offline
  = Ok tableB_offline.
Proof.
  assert (∀ pid, pid ∈ ["a"; "b"; "c"]%string →
            ∃ err, LatencyProbFn (conf tableB_offline) pid = inr err) as Hfail.
  { intros pid _. exists "unreachable"%string. reflexivity. }
  split; [split; [unfold is_perm; reflexivity|exact Hfail]|].
  apply (refreshLatency_failing_probes ["a"; "b"; "c"]%string [0; 1; 2]%nat
           tableB_offline); [unfold is_perm; reflexivity|exact Hfail].
Defined.

(** *** The slots dealt to the rings *)

(** Quotient and remainder of the successor. *)
Lemma div_mod_succ k n :
  0 < n → 0 ≤ k →
  (k mod n + 1 < n → (k + 1) / n = k / n ∧ (k + 1) mod n = k mod n + 1) ∧
  (k mod n + 1 = n → (k + 1) / n = k / n + 1 ∧ (k + 1) mod n = 0).
Proof.
  intros Hn Hk.
  pose proof (Z.div_mod k n ltac:(lia)) as Hdm.
  pose proof (Z.mod_pos_bound k n Hn) as Hm.
  split; intros Hcase.
  - assert ((k + 1) / n = k / n) as Hq.
    { symmetry. apply (Z.div_unique_pos (k + 1) n (k / n) (k mod n + 1)); lia. }
    split; [done|].
    symmetry. apply (Z.mod_unique_pos (k + 1) n (k / n) (k mod n + 1)); lia.
  - assert ((k + 1) / n = k / n + 1) as Hq.
    { symmetry. apply (Z.div_unique_pos (k + 1) n (k / n + 1) 0); lia. }
    split; [done|].
    symmetry. apply (Z.mod_unique_pos (k + 1) n (k / n + 1) 0); lia.
Qed.

(** After [k] rounds the round-robin loop has dealt [quota n k i] slots to
    ring [i] and stands at ring [k mod n]. *)
Lemma foldl_round_robin_quota (n : Z) (k : nat) :
  1 ≤ n →
  foldl (round_robin n) (Ok (replicate (Z.to_nat n) 0, 0)) (seq 0 k)
  = Ok (quota n (Z.of_nat k) <$> seq 0 (Z.to_nat n), Z.of_nat k mod n).
Proof.
  intros Hn. induction k as [|k IH].
  - cbn [seq foldl Z.of_nat]. rewrite Zmod_0_l. f_equal. f_equal.
    apply list_eq. intros i.
    destruct (decide (i < Z.to_nat n)%nat) as [Hi|Hi].
    + rewrite lookup_replicate_2 by done.
      rewrite list_lookup_fmap, lookup_seq_lt by done. simpl.
      unfold quota. rewrite Zdiv_0_l, Zmod_0_l.
      destruct (Z.of_nat i <? 0) eqn:Hlt; [apply Z.ltb_lt in Hlt; lia|done].
    + rewrite !lookup_ge_None_2;
        rewrite ?length_replicate, ?length_fmap, ?length_seq; [done|lia..].
  - rewrite seq_S, foldl_snoc, IH. simpl.
    pose proof (Z.mod_pos_bound (Z.of_nat k) n ltac:(lia)) as Hm.
    destruct (div_mod_succ (Z.of_nat k) n ltac:(lia) ltac:(lia)) as [Hlt Heq].
    unfold round_robin; simpl.
    rewrite list_lookup_fmap, lookup_seq_lt by lia. simpl.
    replace (Z.of_nat (S k)) with (Z.of_nat k + 1) by lia.
    f_equal. f_equal.
    + apply list_eq. intros i.
      destruct (decide (i < Z.to_nat n)%nat) as [Hi|Hi].
      2:{ rewrite !lookup_ge_None_2;
            rewrite ?length_insert, ?length_fmap, ?length_seq; [done|lia..]. }
      rewrite (list_lookup_fmap (quota n (Z.of_nat k + 1))).
      rewrite lookup_seq_lt by done. simpl.
      destruct (decide (i = Z.to_nat (Z.of_nat k mod n))) as [->|Hne].
      * rewrite list_lookup_insert_eq
          by (rewrite length_fmap, length_seq; lia).
        f_equal. unfold quota. rewrite Z2Nat.id by lia.
        rewrite Z.ltb_irrefl.
        destruct (Z_lt_le_dec (Z.of_nat k mod n + 1) n) as [Hc|Hc].
        -- destruct (Hlt Hc) as [-> ->].
           destruct (_ <? _) eqn:E; [lia|apply Z.ltb_ge in E; lia].
        -- destruct (Heq ltac:(lia)) as [-> ->].
           destruct (_ <? _) eqn:E; [apply Z.ltb_lt in E; lia|lia].
      * rewrite list_lookup_insert_ne by done.
        rewrite list_lookup_fmap, lookup_seq_lt by done. simpl.
        f_equal. unfold quota.
        destruct (Z_lt_le_dec (Z.of_nat k mod n + 1) n) as [Hc|Hc].
        -- destruct (Hlt Hc) as [-> ->].
           destruct (Z.of_nat i <? Z.of_nat k mod n) eqn:E1;
             destruct (Z.of_nat i <? Z.of_nat k mod n + 1) eqn:E2;
             rewrite ?Z.ltb_lt, ?Z.ltb_ge in *; lia.
        -- destruct (Heq ltac:(lia)) as [-> ->].
           destruct (Z.of_nat i <? Z.of_nat k mod n) eqn:E1;
             destruct (Z.of_nat i <? 0) eqn:E2;
             rewrite ?Z.ltb_lt, ?Z.ltb_ge in *; lia.
    + destruct (n <=? Z.of_nat k mod n + 1) eqn:E.
      * apply Z.leb_le in E. destruct (Heq ltac:(lia)) as [_ ->]. done.
      * apply Z.leb_gt in E. destruct (Hlt E) as [_ ->]. done.
Qed.

(** The round-robin loop passes a panic on. *)
Lemma strict_round_robin n : strict (round_robin n).
Proof. by split. Qed.

(** X19: with [n] rings the round-robin loop of [Recommend] deals
    [count / n] slots to every ring and one more to the first
    [count mod n] rings, and stops at ring [count mod n]; a negative
    [count] counts as zero. *)
Theorem round_robin_deals_quotas n count :
  1 ≤ n →
  foldl (round_robin n) (Ok (replicate (Z.to_nat n) 0, 0))
    (seq 0 (Z.to_nat count))
  = Ok (quotas n count, Z.max 0 count mod n).
Proof.
  intros Hn. rewrite foldl_round_robin_quota by done.
  unfold quotas. by replace (Z.of_nat (Z.to_nat count)) with (Z.max 0 count) by lia.
Qed.

Lemma round_robin_deals_quotas_witness :
  1 ≤ 4 ∧
  foldl (round_robin 4) (Ok (replicate (Z.to_nat 4) 0, 0)) (seq 0 (Z.to_nat 6))
  = Ok (quotas 4 6, Z.max 0 6 mod 4).
Proof. split; [lia|apply (round_robin_deals_quotas 4 6); lia]. Defined.

(** There is one quota for each ring. *)
Lemma length_quotas n count : length (quotas n count) = Z.to_nat n.
Proof. unfold quotas. by rewrite length_fmap, length_seq. Qed.

(** The quotas add up to the count asked for. *)
Lemma total_quotas n count : 1 ≤ n → total (quotas n count) = Z.max 0 count.
Proof.
  intros Hn.
  pose proof (foldl_round_robin_quota n (Z.to_nat (Z.max 0 count)) Hn) as Hrun.
  apply foldl_round_robin in Hrun as (Htot & _ & _).
  rewrite total_replicate, length_seq in Htot.
  rewrite Z2Nat.id in Htot by lia. unfold quotas. lia.
Qed.

(** No quota is negative. *)
Lemma quota_nonneg n count i : 1 ≤ n → 0 ≤ count → 0 ≤ quota n count i.
Proof.
  intros Hn Hc. unfold quota.
  pose proof (Z.div_pos count n Hc ltac:(lia)).
  destruct (_ <? _); lia.
Qed.

(** *** Recommend with the draws of rand.Perm *)

(** A permutation of [n] positions holds positions below [n], each once. *)
Lemma is_perm_lt n perm : is_perm n perm → Forall (fun j => (j < n)%nat) perm.
Proof.
  unfold is_perm. intros Hperm. apply Forall_forall. intros j Hj.
  rewrite Hperm in Hj. apply elem_of_seq in Hj. lia.
Qed.

Lemma is_perm_NoDup n perm : is_perm n perm → NoDup perm.
Proof. unfold is_perm. intros ->. apply NoDup_seq. Qed.

Lemma is_perm_length n perm : is_perm n perm → length perm = n.
Proof. unfold is_perm. intros ->. apply length_seq. Qed.

(** A walk over positions of the list takes the peers that are not
    excluded. *)
Lemma foldl_walk_perm_valid peers exclude idxs acc :
  Forall (fun j => (j < length peers)%nat) idxs →
  foldl (walk_perm peers exclude) (Ok acc) idxs
  = Ok (acc ++ taken idxs exclude peers).
Proof.
  revert acc. induction idxs as [|j idxs IH]; intros acc Hidxs; cbn [foldl].
  - unfold taken; simpl. by rewrite app_nil_r.
  - apply Forall_cons in Hidxs as [Hj Hidxs].
    apply lookup_lt_is_Some_2 in Hj as [pid Hpid].
    unfold walk_perm at 2; simpl. rewrite Hpid.
    unfold taken; simpl. rewrite Hpid.
    destruct (map_get exclude pid) eqn:Hex.
    + rewrite IH by done. rewrite filter_cons_False by congruence. done.
    + rewrite IH by done. rewrite filter_cons_True by done.
      by rewrite <- app_assoc.
Qed.

(** [pick] with a permutation of the positions of the list. *)
Lemma pick_valid perm count exclude peers :
  is_perm (length peers) perm →
  pick perm count exclude peers
  = Ok (taken (take (Z.to_nat count) perm) exclude peers).
Proof.
  intros Hperm. unfold pick.
  rewrite foldl_walk_perm_valid; [done|].
  apply Forall_take. by apply is_perm_lt.
Qed.

(** The loop over the quotas when every ring asked exists and draws a
    permutation of its positions. *)
Lemma foldl_from_ring_valid rnd exclude rs ics acc :
  Forall (fun ic => ∃ rg, rs !! ic.1 = Some rg ∧
                          is_perm (length (ring_peers rg)) (rnd ic.1)) ics →
  foldl (from_ring rnd exclude rs) (Ok acc) ics
  = Ok (acc ++ concat (picked rnd exclude rs <$> ics)).
Proof.
  revert acc. induction ics as [|[i c] ics IH]; intros acc Hics; cbn [foldl].
  - simpl. by rewrite app_nil_r.
  - apply Forall_cons in Hics as [(rg & Hrg & Hperm) Hics]. simpl in Hrg, Hperm.
    assert (from_ring rnd exclude rs (Ok acc) (i, c)
            = Ok (acc ++ picked rnd exclude rs (i, c))) as ->.
    { unfold from_ring, picked, ring_Recommend; simpl. rewrite Hrg.
      by rewrite pick_valid. }
    rewrite IH by done. rewrite fmap_cons. simpl. by rewrite <- app_assoc.
Qed.

(** The peers taken are peers of the list, none excluded, and as many as
    the positions visited when nothing of the list is excluded. *)
Lemma taken_elem_of idxs exclude peers pid :
  pid ∈ taken idxs exclude peers →
  pid ∈ peers ∧ map_get exclude pid = false.
Proof.
  unfold taken. intros [Hex Hin]%list_elem_of_filter. split; [|done].
  apply list_elem_of_omap in Hin as (j & _ & Hj).
  by eapply list_elem_of_lookup_2.
Qed.

(** Distinct positions of a list without repetition hold distinct
    elements. *)
Lemma NoDup_omap_lookup {A} (l : list A) idxs :
  NoDup l → NoDup idxs → NoDup (omap (l !!.) idxs).
Proof.
  intros Hl. induction 1 as [|j idxs Hj Hidxs IH]; simpl; [constructor|].
  destruct (l !! j) as [x|] eqn:Hx; [|done].
  constructor; [|done].
  intros (j' & Hj' & Hx')%list_elem_of_omap.
  assert (j = j') as -> by apply (NoDup_lookup l j j' x Hl Hx Hx'). done.
Qed.

Lemma taken_NoDup idxs exclude peers :
  NoDup peers → NoDup idxs → NoDup (taken idxs exclude peers).
Proof.
  intros Hp Hi. unfold taken. apply NoDup_filter. by apply NoDup_omap_lookup.
Qed.

(** Positions of the list hold one element each. *)
Lemma length_omap_lookup {A} (l : list A) idxs :
  Forall (fun j => (j < length l)%nat) idxs →
  length (omap (l !!.) idxs) = length idxs.
Proof.
  induction 1 as [|j idxs Hj Hidxs IH]; simpl; [done|].
  apply lookup_lt_is_Some_2 in Hj as [x ->]. simpl. f_equal. exact IH.
Qed.

(** A filter that every element passes changes nothing. *)
Lemma filter_all {A} (P : A → Prop) `{∀ x, Decision (P x)} (l : list A) :
  Forall P l → filter P l = l.
Proof.
  induction 1 as [|x l Hx Hl IH]; [done|].
  rewrite filter_cons_True by done. by rewrite IH.
Qed.

Lemma taken_all idxs exclude peers :
  Forall (fun j => (j < length peers)%nat) idxs →
  Forall (fun pid => map_get exclude pid = false) peers →
  taken idxs exclude peers = omap (peers !!.) idxs.
Proof.
  intros Hidxs Hex. unfold taken.
  apply filter_all.
  apply Forall_forall. intros pid (j & _ & Hj)%list_elem_of_omap.
  rewrite Forall_forall in Hex. apply Hex. by eapply list_elem_of_lookup_2.
Qed.

(** On a table whose rings are those of its configuration, with draws that
    [rand.Perm] can return, [Recommend] answers the picks of the rings for
    their quotas, and fills up from a sample when they are too few. *)
Lemma Recommend_valid {M} `{Metrics M} rnd order count excludeList
    (r : ringsRoutingTable M) :
  well_formed r →
  valid_draws rnd order (rings r) →
  Recommend rnd order count excludeList r
  = let exclude := exclude_all ∅ excludeList in
    let recommended :=
      from_rings rnd exclude (rings r) (quotas (RingsCount (conf r)) count) in
    Ok (if Z.of_nat (length recommended) <? count
        then recommended ++
             taken (take (Z.to_nat (count - Z.of_nat (length recommended)))
                      (rnd (length (rings r))))
               (exclude_all exclude recommended) order
        else recommended).
Proof.
  intros (Hn & Hrings & _) [Hrnd Hsample].
  unfold Recommend, make_ints.
  destruct (RingsCount (conf r) <? 0) eqn:Hneg; [apply Z.ltb_lt in Hneg; lia|].
  cbn [mbind result_bind]. 
  rewrite foldl_round_robin_quota by done.
  replace (Z.of_nat (Z.to_nat count)) with (Z.max 0 count) by lia.
  cbn [mbind result_bind].
  fold (quotas (RingsCount (conf r)) count).
  rewrite foldl_from_ring_valid.
  2:{ apply Forall_forall. intros [i c] Hic. simpl.
      apply elem_of_zip_l in Hic. apply elem_of_seq in Hic.
      rewrite length_quotas, <- Hrings in Hic.
      destruct (lookup_lt_is_Some_2 (rings r) i ltac:(lia)) as [rg Hrg].
      exists rg. split; [done|]. by eapply Hrnd. }
  cbn [mbind result_bind app]. fold (from_rings rnd (exclude_all ∅ excludeList) (rings r)
    (quotas (RingsCount (conf r)) count)).
  cbv zeta.
  destruct (_ <? count); [|done].
  unfold sample. rewrite pick_valid.
  2:{ by rewrite length_quotas, <- Hrings. }
  cbn [mbind result_bind]. by rewrite length_quotas, <- Hrings.
Qed.

(** The table of scenario B and its draws. *)
Lemma well_formed_tableB : well_formed tableB.
Proof. repeat split; vm_compute; (reflexivity || discriminate). Qed.

Lemma valid_drawsB :
  valid_draws drawsB ["a"; "b"; "c"]%string (rings tableB).
Proof.
  assert (rings tableB
          = [mkRing ["a"%string]; mkRing ["b"%string]; mkRing [];
             mkRing ["c"%string]]) as -> by (vm_compute; reflexivity).
  split; [|unfold is_perm; reflexivity].
  intros i rg Hi. unfold is_perm.
  destruct i as [|[|[|[|i]]]]; simpl in Hi;
    [injection Hi as <-; reflexivity..|discriminate].
Qed.

(** X20: on a table with the rings of its configuration [Recommend]
    returns, whatever [count] and the exclude list are and whatever
    [rand.Perm] draws. *)
Theorem Recommend_returns {M} `{Metrics M} rnd order count excludeList
    (r : ringsRoutingTable M) :
  well_formed r →
  valid_draws rnd order (rings r) →
  ∃ res, Recommend rnd order count excludeList r = Ok res.
Proof. intros Hwf Hdraws. rewrite Recommend_valid by done. by eexists. Qed.

Lemma Recommend_returns_witness :
  (well_formed tableB ∧ valid_draws drawsB ["a"; "b"; "c"]%string (rings tableB)) ∧
  ∃ res, Recommend drawsB ["a"; "b"; "c"]%string 3 [] tableB = Ok res.
Proof.
  split; [split; [exact well_formed_tableB|exact valid_drawsB]|].
  apply (Recommend_returns drawsB ["a"; "b"; "c"]%string 3 [] tableB
           well_formed_tableB valid_drawsB).
Defined.

(** Membership in a concatenation. *)
Lemma elem_of_concat {A} (x : A) (ls : list (list A)) :
  x ∈ concat ls ↔ ∃ l, x ∈ l ∧ l ∈ ls.
Proof.
  induction ls as [|l ls IH]; simpl.
  - split; [by intros ?%elem_of_nil|by intros (l & _ & ?%elem_of_nil)].
  - rewrite elem_of_app, IH. split.
    + intros [Hx|(l' & Hx & Hl')].
      * exists l. split; [done|by left].
      * exists l'. split; [done|by right].
    + intros (l' & Hx & [->|Hl']%elem_of_cons); [by left|].
      right. by exists l'.
Qed.

(** The answers of rings in which no peer is twice hold no peer twice. *)
Lemma NoDup_concat_sub {A} (ls ks : list (list A)) :
  Forall2 (fun l k => (NoDup k → NoDup l) ∧ ∀ x, x ∈ l → x ∈ k) ls ks →
  NoDup (concat ks) → NoDup (concat ls) ∧ ∀ x, x ∈ concat ls → x ∈ concat ks.
Proof.
  induction 1 as [|l k ls ks [Hnd Hsub] Hrest IH]; simpl; [done|].
  intros (Hk & Hdisj & Hks)%NoDup_app.
  destruct (IH Hks) as [IHnd IHsub]. split.
  - apply NoDup_app. split; [by apply Hnd|]. split; [|done].
    intros x Hx Hx'. apply (Hdisj x); [by apply Hsub|by apply IHsub].
  - intros x [Hx|Hx]%elem_of_app; apply elem_of_app; [left|right]; auto.
Qed.

(** Rings that share no peer answer no peer twice. *)
Lemma from_rings_NoDup rnd exclude rs qs :
  length qs = length rs →
  (∀ i rg, rs !! i = Some rg → NoDup (rnd i)) →
  disjoint_rings rs →
  NoDup (from_rings rnd exclude rs qs).
Proof.
  intros Hlen Hrnd Hdisj. unfold from_rings.
  apply (NoDup_concat_sub _ (ring_peers <$> rs)); [|done].
  apply Forall2_same_length_lookup_2.
  { rewrite !length_fmap, length_zip, length_seq. lia. }
  intros i l k Hl Hk.
  rewrite list_lookup_fmap in Hk.
  destruct (rs !! i) as [rg|] eqn:Hrg; [|done]. injection Hk as <-.
  rewrite list_lookup_fmap in Hl.
  destruct (zip _ _ !! i) as [[i' c]|] eqn:Hic; [|done]. injection Hl as <-.
  apply lookup_zip_with_Some in Hic as (i0 & c0 & [= <- <-] & Hi0 & Hc0).
  apply lookup_seq in Hi0 as [-> _]. simpl.
  unfold picked; simpl. rewrite Hrg. split.
  - intros Hnd. apply taken_NoDup; [done|].
    eapply sublist_NoDup; [|apply sublist_take]. by eapply Hrnd.
  - intros x Hx. by apply taken_elem_of in Hx as [? _].
Qed.


(** X21: when no peer is twice in the rings, as after a repopulation
    pass, [Recommend] answers no peer twice, also when it fills up from the
    fallback sample. *)
Theorem Recommend_no_duplicates {M} `{Metrics M} rnd order count excludeList
    (r : ringsRoutingTable M) res :
  well_formed r →
  valid_draws rnd order (rings r) →
  disjoint_rings (rings r) →
  NoDup order →
  Recommend rnd order count excludeList r = Ok res →
  NoDup res.
Proof.
  intros Hwf Hdraws Hdisj Horder.
  rewrite Recommend_valid by done. cbv zeta. intros [= <-].
  pose proof Hwf as (_ & Hrings & _). destruct Hdraws as [Hrnd Hsample].
  assert (NoDup (from_rings rnd (exclude_all ∅ excludeList) (rings r)
            (quotas (RingsCount (conf r)) count))) as Hrec.
  { apply from_rings_NoDup; [by rewrite length_quotas|
      by intros i rg Hi; eapply is_perm_NoDup, Hrnd|done]. }
  destruct (_ <? count); [|done].
  apply NoDup_app. split; [done|]. split.
  - intros pid Hpid [_ Hex]%taken_elem_of.
    assert (map_get (exclude_all (exclude_all ∅ excludeList)
              (from_rings rnd (exclude_all ∅ excludeList) (rings r)
                 (quotas (RingsCount (conf r)) count))) pid = true) as Htrue;
      [|congruence].
    apply map_get_exclude_all. by right.
  - apply taken_NoDup; [done|].
    eapply sublist_NoDup; [|apply sublist_take]. by eapply is_perm_NoDup.
Qed.

Lemma Recommend_no_duplicates_witness :
  (well_formed tableB ∧
   valid_draws drawsB ["a"; "b"; "c"]%string (rings tableB) ∧
   disjoint_rings (rings tableB) ∧
   NoDup ["a"; "b"; "c"]%string ∧
   Recommend drawsB ["a"; "b"; "c"]%string 3 [] tableB
   = Ok ["a"; "b"]%string) ∧
  NoDup ["a"; "b"]%string.
Proof.
  assert (disjoint_rings (rings tableB)) as Hdisj.
  { unfold disjoint_rings. apply (bool_decide_unpack _). vm_compute. exact I. }
  assert (NoDup ["a"; "b"; "c"]%string) as Hnd.
  { apply (bool_decide_unpack _). vm_compute. exact I. }
  split.
  { split; [exact well_formed_tableB|]. split; [exact valid_drawsB|].
    split; [exact Hdisj|]. split; [exact Hnd|vm_compute; reflexivity]. }
  apply (Recommend_no_duplicates drawsB ["a"; "b"; "c"]%string 3 [] tableB
           ["a"; "b"]%string well_formed_tableB valid_drawsB Hdisj Hnd).
  vm_compute; reflexivity.
Defined.

(** When every ring answers its quota the answers are as many as the
    quotas add up to. *)
Lemma length_concat_picked rnd exclude rs ics :
  Forall (fun ic => Z.of_nat (length (picked rnd exclude rs ic)) = ic.2) ics →
  Z.of_nat (length (concat (picked rnd exclude rs <$> ics))) = total (ics.*2).
Proof.
  induction 1 as [|ic ics Hic Hics IH]; [done|].
  rewrite !fmap_cons, total_cons. simpl concat. rewrite length_app. lia.
Qed.

(** A peer is not excluded exactly when it is not in the exclude
    list. *)
Lemma map_get_exclude_list_false l pid :
  map_get (exclude_all ∅ l) pid = false ↔ pid ∉ l.
Proof.
  rewrite <- map_get_exclude_list.
  destruct (map_get (exclude_all ∅ l) pid); split; congruence.
Qed.

(** X22: when every ring holds at least the slots dealt to it and none
    of its peers is excluded, [Recommend] answers exactly [count] peers,
    all of them from the rings. *)
Lemma Recommend_exact_count {M} `{Metrics M} rnd order count excludeList
    (r : ringsRoutingTable M) :
  well_formed r →
  valid_draws rnd order (rings r) →
  0 ≤ count →
  (∀ i rg, rings r !! i = Some rg →
     quota (RingsCount (conf r)) count i ≤ Z.of_nat (length (ring_peers rg)) ∧
     Forall (fun pid => pid ∉ excludeList) (ring_peers rg)) →
  ∃ res, Recommend rnd order count excludeList r = Ok res ∧
         Z.of_nat (length res) = count ∧
         Forall (fun pid => ∃ rg, rg ∈ rings r ∧ pid ∈ ring_peers rg) res.
Proof.
  intros Hwf Hdraws Hcount Hfull.
  rewrite Recommend_valid by done. cbv zeta.
  destruct Hwf as (Hn & Hrings & _). destruct Hdraws as [Hrnd _].
  set (recommended := from_rings _ _ _ _).
  assert (Z.of_nat (length recommended) = count) as Hlen.
  { unfold recommended, from_rings.
    rewrite length_concat_picked.
    - rewrite snd_zip by (rewrite length_seq; lia).
      rewrite total_quotas by done. lia.
    - apply Forall_forall. intros [i c] Hic.
      apply list_elem_of_lookup_1 in Hic as [k Hk].
      apply lookup_zip_with_Some in Hk as (i0 & c0 & [= <- <-] & Hi0 & Hc0).
      apply lookup_seq in Hi0 as [-> Hk]. simpl in *.
      rewrite length_quotas, <- Hrings in Hk.
      destruct (lookup_lt_is_Some_2 (rings r) k Hk) as [rg Hrg].
      unfold quotas in Hc0. rewrite list_lookup_fmap in Hc0.
      rewrite lookup_seq_lt in Hc0 by lia. injection Hc0 as <-.
      replace (Z.max 0 count) with count by lia.
      destruct (Hfull k rg Hrg) as [Hq Hex].
      pose proof (quota_nonneg (RingsCount (conf r)) count k Hn Hcount) as Hq0.
      pose proof (Hrnd k rg Hrg) as Hperm.
      unfold picked; simpl. rewrite Hrg.
      rewrite taken_all.
      + rewrite length_omap_lookup
          by (apply Forall_take; by apply is_perm_lt).
        rewrite length_take, (is_perm_length _ _ Hperm). lia.
      + apply Forall_take. by apply is_perm_lt.
      + eapply Forall_impl; [exact Hex|]. intros pid Hpid.
        by apply map_get_exclude_list_false. }
  rewrite Hlen, Z.ltb_irrefl. eexists. split; [done|]. split; [done|].
  apply Forall_forall. intros pid Hpid.
  unfold recommended, from_rings in Hpid.
  apply elem_of_concat in Hpid as (l & Hpid & Hl).
  apply list_elem_of_fmap in Hl as ([i c] & -> & _).
  unfold picked in Hpid; simpl in Hpid.
  destruct (rings r !! i) as [rg|] eqn:Hrg; [|by apply elem_of_nil in Hpid].
  apply taken_elem_of in Hpid as [Hpid _].
  exists rg. split; [by eapply list_elem_of_lookup_2|done].
Qed.

Lemma Recommend_exact_count_witness :
  (well_formed tableB ∧
   valid_draws drawsB ["a"; "b"; "c"]%string (rings tableB) ∧
   0 ≤ 2 ∧
   ∀ i rg, rings tableB !! i = Some rg →
     quota (RingsCount (conf tableB)) 2 i ≤ Z.of_nat (length (ring_peers rg)) ∧
     Forall (fun pid => pid ∉ ([] : list PeerID)) (ring_peers rg)) ∧
  ∃ res, Recommend drawsB ["a"; "b"; "c"]%string 2 [] tableB = Ok res ∧
         Z.of_nat (length res) = 2 ∧
         Forall (fun pid => ∃ rg, rg ∈ rings tableB ∧ pid ∈ ring_peers rg) res.
Proof.
  assert (∀ i rg, rings tableB !! i = Some rg →
     quota (RingsCount (conf tableB)) 2 i ≤ Z.of_nat (length (ring_peers rg)) ∧
     Forall (fun pid => pid ∉ ([] : list PeerID)) (ring_peers rg)) as Hfull.
  { assert (rings tableB
            = [mkRing ["a"%string]; mkRing ["b"%string]; mkRing [];
               mkRing ["c"%string]]) as -> by (vm_compute; reflexivity).
    assert (RingsCount (conf tableB) = 4) as -> by reflexivity.
    intros i rg Hi.
    destruct i as [|[|[|[|i]]]]; simpl in Hi; [| | | |discriminate];
      injection Hi as <-;
      (split; [vm_compute; discriminate|
               apply Forall_forall; intros pid _; apply not_elem_of_nil]). }
  split.
  { split; [exact well_formed_tableB|]. split; [exact valid_drawsB|].
    split; [lia|exact Hfull]. }
  apply (Recommend_exact_count drawsB ["a"; "b"; "c"]%string 2 [] tableB
           well_formed_tableB valid_drawsB); [lia|exact Hfull].
Defined.

(** An empty ring answers nothing. *)
Lemma picked_nil rnd exclude rs ic :
  (∀ rg, rs !! ic.1 = Some rg → ring_peers rg = []) →
  picked rnd exclude rs ic = [].
Proof.
  intros Hempty. unfold picked. destruct (rs !! ic.1) as [rg|]; [|done].
  rewrite (Hempty rg eq_refl). unfold taken.
  generalize (take (Z.to_nat ic.2) (rnd ic.1)) as idxs.
  induction idxs as [|j idxs IH]; [done|]. simpl. exact IH.
Qed.

Lemma from_rings_nil rnd exclude rs qs :
  Forall (fun rg => ring_peers rg = []) rs →
  from_rings rnd exclude rs qs = [].
Proof.
  intros Hempty. unfold from_rings.
  generalize (zip (seq 0 (length qs)) qs) as ics.
  induction ics as [|ic ics IH]; [done|].
  rewrite fmap_cons. simpl. rewrite IH, app_nil_r.
  apply picked_nil. intros rg Hrg.
  rewrite Forall_forall in Hempty. apply Hempty.
  by eapply list_elem_of_lookup_2.
Qed.

(** X23: as long as every ring is empty, as from the constructor until
    the first repopulation pass, [Recommend] answers what [sample]
    answers for the same count and exclusions. *)
Theorem Recommend_before_populate {M} `{Metrics M} rnd order count excludeList
    (r : ringsRoutingTable M) :
  well_formed r →
  Forall (fun rg => ring_peers rg = []) (rings r) →
  (∀ i, (i < length (rings r))%nat → rnd i = []) →
  is_perm (length order) (rnd (length (rings r))) →
  Recommend rnd order count excludeList r
  = sample order (rnd (length (rings r))) count (exclude_all ∅ excludeList) r.
Proof.
  intros Hwf Hempty Hrnd Hperm.
  rewrite Recommend_valid; [|done|].
  2:{ split; [|done]. intros i rg Hi.
      rewrite Forall_forall in Hempty.
      rewrite (Hempty rg) by (by eapply list_elem_of_lookup_2).
      rewrite Hrnd by (by eapply lookup_lt_Some). unfold is_perm. done. }
  cbv zeta. rewrite from_rings_nil by done.
  unfold sample. rewrite pick_valid by done.
  cbn [length Z.of_nat app exclude_all foldl].
  change (Z.of_nat 0) with 0. rewrite Z.sub_0_r.
  destruct (0 <? count) eqn:Hc; [done|].
  apply Z.ltb_ge in Hc. by replace (Z.to_nat count) with 0%nat by lia.
Qed.

Lemma Recommend_before_populate_witness :
  (well_formed (table_with scenarioB) ∧
   Forall (fun rg => ring_peers rg = []) (rings (table_with scenarioB)) ∧
   (∀ i, (i < length (rings (table_with scenarioB)))%nat → draws_fresh i = []) ∧
   is_perm (length ["a"; "b"; "c"]%string)
     (draws_fresh (length (rings (table_with scenarioB))))) ∧
  Recommend draws_fresh ["a"; "b"; "c"]%string 2 ["b"%string]
    (table_with scenarioB)
  = sample ["a"; "b"; "c"]%string
      (draws_fresh (length (rings (table_with scenarioB)))) 2
      (exclude_all ∅ ["b"%string]) (table_with scenarioB).
Proof.
  assert (well_formed (table_with scenarioB)) as Hwf
    by (repeat split; vm_compute; (reflexivity || discriminate)).
  assert (Forall (fun rg => ring_peers rg = []) (rings (table_with scenarioB)))
    as Hempty.
  { apply (bool_decide_unpack _). vm_compute. exact I. }
  assert (∀ i, (i < length (rings (table_with scenarioB)))%nat →
               draws_fresh i = []) as Hrnd.
  { assert (length (rings (table_with scenarioB)) = 4%nat) as ->
      by (vm_compute; reflexivity).
    intros i Hi. destruct i as [|[|[|[|i]]]]; [reflexivity..|lia]. }
  assert (is_perm (length ["a"; "b"; "c"]%string)
            (draws_fresh (length (rings (table_with scenarioB))))) as Hperm.
  { assert (length (rings (table_with scenarioB)) = 4%nat) as ->
      by (vm_compute; reflexivity).
    unfold is_perm. reflexivity. }
  split; [by repeat split|].
  apply (Recommend_before_populate draws_fresh ["a"; "b"; "c"]%string 2
           ["b"%string] (table_with scenarioB) Hwf Hempty Hrnd Hperm).
Defined.

(** Rings asked for no peer answer none. *)
Lemma foldl_from_ring_zero rnd exclude rs ics acc :
  Forall (fun ic => ic.2 = 0 ∧ is_Some (rs !! ic.1)) ics →
  foldl (from_ring rnd exclude rs) (Ok acc) ics = Ok acc.
Proof.
  induction 1 as [|[i c] ics [Hc [rg Hrg]] Hics IH]; [done|].
  cbn [foldl]. simpl in Hc, Hrg. subst c.
  assert (from_ring rnd exclude rs (Ok acc) (i, 0) = Ok acc) as ->; [|done].
  unfold from_ring, ring_Recommend, pick; simpl. rewrite Hrg. simpl.
  by rewrite app_nil_r.
Qed.

(** X24: asked for zero peers or fewer, [Recommend] answers none,
    whatever the draws are. *)
Theorem Recommend_nothing_asked {M} `{Metrics M} rnd order count excludeList
    (r : ringsRoutingTable M) :
  count ≤ 0 →
  0 ≤ RingsCount (conf r) →
  (Z.to_nat (RingsCount (conf r)) ≤ length (rings r))%nat →
  Recommend rnd order count excludeList r = Ok [].
Proof.
  intros Hcount Hn Hrings. unfold Recommend, make_ints.
  destruct (RingsCount (conf r) <? 0) eqn:Hneg; [apply Z.ltb_lt in Hneg; lia|].
  replace (Z.to_nat count) with 0%nat by lia.
  cbn [mbind result_bind seq foldl].
  rewrite foldl_from_ring_zero.
  - cbn [mbind result_bind length]. change (Z.of_nat 0) with 0.
    destruct (0 <? count) eqn:Hc; [apply Z.ltb_lt in Hc; lia|done].
  - apply Forall_forall. intros [i c] Hic.
    apply list_elem_of_lookup_1 in Hic as [k Hk].
    apply lookup_zip_with_Some in Hk as (i0 & c0 & [= <- <-] & Hi0 & Hc0).
    apply lookup_seq in Hi0 as [-> Hk]. rewrite length_replicate in Hk.
    apply lookup_replicate in Hc0 as [-> _]. simpl. split; [done|].
    apply lookup_lt_is_Some_2. lia.
Qed.

Lemma Recommend_nothing_asked_witness :
  (0 ≤ 0 ∧ 0 ≤ RingsCount (conf tableB) ∧
   (Z.to_nat (RingsCount (conf tableB)) ≤ length (rings tableB))%nat) ∧
  Recommend drawsB ["a"; "b"; "c"]%string 0 [] tableB = Ok [].
Proof.
  assert (Z.to_nat (RingsCount (conf tableB)) ≤ length (rings tableB))%nat
    as Hlen.
  { assert (length (rings tableB) = 4%nat) as -> by (vm_compute; reflexivity).
    assert (RingsCount (conf tableB) = 4) as -> by reflexivity. lia. }
  split; [split; [lia|split; [vm_compute; discriminate|exact Hlen]]|].
  apply (Recommend_nothing_asked drawsB ["a"; "b"; "c"]%string 0 [] tableB);
    [lia|vm_compute; discriminate|exact Hlen].
Defined.

(** X25: with a ring count of zero or less [Recommend] panics when asked
    for a peer: in [make] when the count is negative, at the first slot
    otherwise. *)
Theorem Recommend_without_rings_panics {M} `{Metrics M} rnd order count
    excludeList (r : ringsRoutingTable M) :
  RingsCount (conf r) ≤ 0 →
  0 < count →
  Recommend rnd order count excludeList r
  = Panic (if RingsCount (conf r) <? 0 then "makeslice: len out of range"
           else "index out of range").
Proof.
  intros Hn Hcount. unfold Recommend, make_ints.
  destruct (RingsCount (conf r) <? 0) eqn:Hneg; [done|].
  apply Z.ltb_ge in Hneg.
  replace (RingsCount (conf r)) with 0 by lia.
  destruct (Z.to_nat count) as [|k] eqn:Hk; [lia|].
  cbn [mbind result_bind seq foldl].
  assert (round_robin 0 (Ok (replicate (Z.to_nat 0) 0, 0)) 0%nat
          = Panic "index out of range") as -> by done.
  by rewrite foldl_Panic by apply strict_round_robin.
Qed.

Lemma Recommend_without_rings_panics_witness :
  (RingsCount (conf tableZ) ≤ 0 ∧ 0 < 1) ∧
  Recommend no_rnd ["a"%string] 1 [] tableZ
  = Panic (if RingsCount (conf tableZ) <? 0
           then "makeslice: len out of range" else "index out of range").
Proof.
  split; [split; [vm_compute; discriminate|lia]|].
  apply (Recommend_without_rings_panics no_rnd ["a"%string] 1 [] tableZ);
    [vm_compute; discriminate|lia].
Defined.

(** *** Shutdown and the goroutine *)

(** Once the goroutine has returned, whatever is offered changes
    nothing. *)
Lemma run_background_Returned {M} `{Metrics M} (s : background M) evs :
  bg_phase s = Returned → run_background evs s = Ok s.
Proof.
  intros Hs. unfold run_background.
  induction evs as [|ev evs IH]; [done|].
  cbn [foldl]. by rewrite background_step_Returned.
Qed.

(** X26: while the table is not shut down the shutdown case of the
    goroutine is not ready; [Shutdown] then succeeds and changes neither
    peers, rings nor estimates, and the goroutine, which reads the table
    through the pointer it shares with the caller, takes the shutdown case
    and returns without running the refresh body, whatever is offered
    later. *)
Theorem Shutdown_ends_background {M} `{Metrics M} (r : ringsRoutingTable M)
    evs :
  chan_closed (shutdown r) = false →
  background_step (Ok (start_background r)) ShutdownObserved = Blocked ∧
  ∃ r', Shutdown r = Ok r' ∧
        run_background (ShutdownObserved :: evs) (start_background r')
        = Ok (mkBackground Returned r' 0) ∧
        peers r' = peers r ∧ rings r' = rings r ∧ metrics r' = metrics r.
Proof.
  intros Hopen. split.
  - unfold background_step, recv; simpl. by rewrite Hopen.
  - unfold Shutdown, close. rewrite Hopen; simpl.
    eexists. split; [done|]. split; [|done].
    unfold run_background. cbn [foldl].
    by apply (run_background_Returned (mkBackground Returned _ 0)).
Qed.

Lemma Shutdown_ends_background_witness :
  chan_closed (shutdown default_table) = false ∧
  background_step (Ok (start_background default_table)) ShutdownObserved
  = Blocked ∧
  ∃ r', Shutdown default_table = Ok r' ∧
        run_background [ShutdownObserved; TimerFired no_draws]
          (start_background r')
        = Ok (mkBackground Returned r' 0) ∧
        peers r' = peers default_table ∧ rings r' = rings default_table ∧
        metrics r' = metrics default_table.
Proof.
  split; [reflexivity|].
  apply (Shutdown_ends_background default_table [TimerFired no_draws]).
  reflexivity.
Defined.



(** ** Properties of the pairing service *)

(** C7: when the stream was opened and the read of the control byte times
    out or fails, [pair] answers false with the error of the read and
    closes the stream; the routing table, the cached addresses and the
    stream store are as before, and no process is started. *)
Theorem pair_read_failure {M} `{Metrics M} {SS} `{StreamStore SS}
    (c : client M SS) (stream : Stream) (err : error) (peerId : PeerID) :
  ∃ c', pair (inl stream) (inr err) peerId c = Ok (false, Some err, c') ∧
        closes c' = closes c ++ [stream] ∧
        table c' = table c ∧
        addrs c' = addrs c ∧
        streamstore c' = streamstore c ∧
        processes c' = processes c.
Proof. eexists. by split. Qed.

(** X8: on the way out of a failed connection attempt the peer does lose its
    addresses and its place in the table. *)
Lemma pair_connect_failure {M} `{Metrics M} {SS} `{StreamStore SS}
    (c : client M SS) err received peerId t :
  Remove peerId (table c) = Ok t →
  ∃ c', pair (inr err) received peerId c = Ok (false, Some err, c') ∧
        table c' = t ∧ addrs c' = delete peerId (addrs c) ∧
        closes c' = closes c ∧ processes c' = processes c.
Proof.
  intros Ht. unfold pair; simpl. rewrite Ht; simpl. eexists. by split.
Qed.

Lemma pair_connect_failure_witness :
  Remove "b" (table clientB) = Ok tableB_without_b ∧
  ∃ c', pair (inr "dial backoff"%string) (inr "unused"%string) "b" clientB
          = Ok (false, Some "dial backoff"%string, c') ∧
        table c' = tableB_without_b ∧
        addrs c' = delete "b"%string (addrs clientB) ∧
        closes c' = closes clientB ∧ processes c' = processes clientB.
Proof.
  split; [vm_compute; reflexivity|].
  apply (pair_connect_failure clientB "dial backoff"%string
           (inr "unused"%string) "b"%string).
  vm_compute; reflexivity.
Defined.

(** C8: when the control byte is NAK, or is ACK and the stream store
    rejects the outbound registration, [pair] closes the stream and
    answers false without an error, and starts no process; and when the
    stream store of the responder rejects the inbound stream,
    [pairHandler] writes the one byte 0x15, closes the stream and starts
    no process. *)
Theorem pairing_rejected {M} `{Metrics M} {SS} `{StreamStore SS}
    (c c2 : client M SS) (stream stream2 : Stream) (b : byte)
    (rest : list byte) (peerId : PeerID) (sent : option error) :
  b = nak ∨ (b = ack ∧ (store_Add (streamstore c) peerId stream true).2 = false) →
  (store_Add (streamstore c2) (RemotePeer stream2) stream2 false).2 = false →
  (∃ c', pair (inl stream) (inl (b :: rest)) peerId c = Ok (false, None, c') ∧
         closes c' = closes c ++ [stream] ∧
         processes c' = processes c) ∧
  writes (pairHandler sent stream2 c2)
    = writes c2 ++ [mkWrite stream2 [0x15] sent] ∧
  closes (pairHandler sent stream2 c2) = closes c2 ++ [stream2] ∧
  processes (pairHandler sent stream2 c2) = processes c2.
Proof.
  intros Hinit Hresp. split.
  - unfold pair; cbv zeta. destruct Hinit as [->|[-> Hrej]].
    + rewrite decide_False by done. eexists. by split.
    + rewrite decide_True by done. revert Hrej.
      destruct (store_Add (streamstore c) peerId stream true) as [s added];
        simpl; intros ->.
      eexists. by split.
  - unfold pairHandler; cbv zeta. revert Hresp.
    destruct (store_Add (streamstore c2) (RemotePeer stream2) stream2 false)
      as [s added]; simpl; intros ->.
    done.
Qed.

Lemma pairing_rejected_witness :
  ((0x15 = nak ∨
    (0x15 = ack ∧
     (store_Add (streamstore clientB) "b" streamB true).2 = false)) ∧
   (store_Add (streamstore clientB_paired) (RemotePeer streamB) streamB
      false).2 = false) ∧
  (∃ c', pair (inl streamB) (inl [0x15]) "b" clientB = Ok (false, None, c') ∧
         closes c' = closes clientB ++ [streamB] ∧
         processes c' = processes clientB) ∧
  writes (pairHandler None streamB clientB_paired)
    = writes clientB_paired ++ [mkWrite streamB [0x15] None] ∧
  closes (pairHandler None streamB clientB_paired)
    = closes clientB_paired ++ [streamB] ∧
  processes (pairHandler None streamB clientB_paired)
    = processes clientB_paired.
Proof.
  split.
  - split; [left; reflexivity|vm_compute; reflexivity].
  - apply (pairing_rejected clientB clientB_paired streamB streamB 0x15 []
             "b"%string None).
    + left; reflexivity.
    + vm_compute; reflexivity.
Defined.

(** When the acknowledgement cannot be written, the handler removes the
    registration, starts no process and returns.  It makes no call of
    [stream.Close()] of its own on this path; what the store does with the
    stream when the entry is removed is outside these sources. *)
Lemma pairHandler_unacknowledged {M} `{Metrics M} {SS} `{StreamStore SS}
    (c : client M SS) (stream : Stream) (err : error) s :
  store_Add (streamstore c) (RemotePeer stream) stream false = (s, true) →
  streamstore (pairHandler (Some err) stream c)
    = store_Remove s (RemotePeer stream) ∧
  writes (pairHandler (Some err) stream c)
    = writes c ++ [mkWrite stream [ack] (Some err)] ∧
  processes (pairHandler (Some err) stream c) = processes c.
Proof. intros Hadd. unfold pairHandler; cbv zeta. by rewrite Hadd. Qed.

(** One more occurrence at the end of a list. *)
Lemma occurrences_snoc (stream : Stream) l :
  occurrences stream (l ++ [stream]) = S (occurrences stream l).
Proof.
  unfold occurrences. rewrite filter_app, length_app.
  rewrite filter_cons_True by done. simpl. lia.
Qed.

(** X6: [pairHandler] releases the stream once when the stream store
    refuses it, by closing it, and once when the acknowledgement is
    written, by handing it to a process. *)
Lemma pairHandler_releases {M} `{Metrics M} {SS} `{StreamStore SS}
    (c : client M SS) (stream : Stream) (sent : option error) :
  (store_Add (streamstore c) (RemotePeer stream) stream false).2 = false ∨
  sent = None →
  released stream (pairHandler sent stream c) = S (released stream c) ∧
  ((store_Add (streamstore c) (RemotePeer stream) stream false).2 = false →
   closes (pairHandler sent stream c) = closes c ++ [stream] ∧
   processes (pairHandler sent stream c) = processes c) ∧
  ((store_Add (streamstore c) (RemotePeer stream) stream false).2 = true →
   closes (pairHandler sent stream c) = closes c ∧
   processes (pairHandler sent stream c) = processes c ++ [stream]).
Proof.
  unfold pairHandler, released; cbv zeta.
  destruct (store_Add (streamstore c) (RemotePeer stream) stream false)
    as [s added]; simpl.
  intros [->| ->].
  - simpl. rewrite occurrences_snoc. split; [lia|]. by split.
  - destruct added; simpl; rewrite occurrences_snoc;
      (split; [lia|]); by split.
Qed.

Lemma pairHandler_releases_witness :
  ((store_Add (streamstore clientB_paired) (RemotePeer streamB) streamB
      false).2 = false ∨
   (None : option error) = None) ∧
  released streamB (pairHandler None streamB clientB_paired)
  = S (released streamB clientB_paired) ∧
  ((store_Add (streamstore clientB_paired) (RemotePeer streamB) streamB
      false).2 = false →
   closes (pairHandler None streamB clientB_paired)
   = closes clientB_paired ++ [streamB] ∧
   processes (pairHandler None streamB clientB_paired)
   = processes clientB_paired) ∧
  ((store_Add (streamstore clientB_paired) (RemotePeer streamB) streamB
      false).2 = true →
   closes (pairHandler None streamB clientB_paired) = closes clientB_paired ∧
   processes (pairHandler None streamB clientB_paired)
   = processes clientB_paired ++ [streamB]).
Proof.
  split; [left; vm_compute; reflexivity|].
  apply (pairHandler_releases clientB_paired streamB None).
  left; vm_compute; reflexivity.
Defined.

(** X7: once the stream is open, every way out of [pair] releases it
    once. *)
Lemma pair_releases {M} `{Metrics M} {SS} `{StreamStore SS}
    (c c' : client M SS) (stream : Stream) received peerId ok err :
  pair (inl stream) received peerId c = Ok (ok, err, c') →
  released stream c' = S (released stream c).
Proof.
  unfold pair, released; cbv zeta.
  destruct received as [[|b data]|e]; [done| |].
  - destruct (decide (b = ack)).
    + destruct (store_Add (streamstore c) peerId stream true) as [s added].
      destruct added; intros [= <- <- <-]; simpl;
        rewrite occurrences_snoc; lia.
    + intros [= <- <- <-]; simpl. rewrite occurrences_snoc; lia.
  - intros [= <- <- <-]; simpl. rewrite occurrences_snoc; lia.
Qed.

Lemma pair_releases_witness :
  pair (inl streamB) (inl [0x06]) "b" clientB
    = Ok (true, None, go_process streamB
            (set_streamstore {[ "b"%string := (streamB, true) ]} clientB)) ∧
  released streamB (go_process streamB
     (set_streamstore {[ "b"%string := (streamB, true) ]} clientB))
  = S (released streamB clientB).
Proof.
  split; [vm_compute; reflexivity|].
  apply (pair_releases clientB _ streamB (inl [0x06]) "b"%string true None).
  vm_compute; reflexivity.
Defined.

(** *** The two ends of the handshake *)

(** X28: once the stream is open and a control byte has come, [pair]
    answers no error; it answers true exactly when the byte is ACK and the
    stream store accepts the outbound stream, and then hands the stream to
    a process without closing it; otherwise it closes the stream.  The
    store is not asked on another byte, and the table, the addresses and
    the writes stay as they are. *)
Theorem pair_outcome {M} `{Metrics M} {SS} `{StreamStore SS}
    (c c' : client M SS) (stream : Stream) (b : byte) (rest : list byte)
    (peerId : PeerID) ok err :
  pair (inl stream) (inl (b :: rest)) peerId c = Ok (ok, err, c') →
  err = None ∧
  (ok = true ↔
   b = ack ∧ (store_Add (streamstore c) peerId stream true).2 = true) ∧
  (b ≠ ack → streamstore c' = streamstore c) ∧
  (ok = true → processes c' = processes c ++ [stream] ∧ closes c' = closes c) ∧
  (ok = false → closes c' = closes c ++ [stream] ∧ processes c' = processes c) ∧
  table c' = table c ∧ addrs c' = addrs c ∧ writes c' = writes c.
Proof.
  unfold pair; cbv zeta.
  destruct (decide (b = ack)) as [Hb|Hb].
  - destruct (store_Add (streamstore c) peerId stream true) as [s added].
    destruct added; intros [= <- <- <-]; simpl;
      repeat split; try done; try (by intros [_ ?]); by intros [? ?].
  - intros [= <- <- <-]; simpl.
    repeat split; try done; try (by intros [? _]); by intros [? ?].
Qed.

Lemma pair_outcome_witness :
  pair (inl streamB) (inl [0x06]) "b" clientB
  = Ok (true, None, go_process streamB
          (set_streamstore {[ "b"%string := (streamB, true) ]} clientB)) ∧
  let c' := go_process streamB
              (set_streamstore {[ "b"%string := (streamB, true) ]} clientB) in
  None = (None : option error) ∧
  (true = true ↔
   0x06 = ack ∧
   (store_Add (streamstore clientB) "b" streamB true).2 = true) ∧
  (0x06 ≠ ack → streamstore c' = streamstore clientB) ∧
  (true = true →
   processes c' = processes clientB ++ [streamB] ∧
   closes c' = closes clientB) ∧
  (true = false →
   closes c' = closes clientB ++ [streamB] ∧
   processes c' = processes clientB) ∧
  table c' = table clientB ∧ addrs c' = addrs clientB ∧
  writes c' = writes clientB.
Proof.
  split; [vm_compute; reflexivity|].
  apply (pair_outcome clientB _ streamB 0x06 [] "b"%string true None).
  vm_compute; reflexivity.
Defined.

(** X29: [pairHandler] writes one control byte on every path, ACK when
    the stream store accepted the inbound stream and NAK when not; it
    starts a process exactly when the store accepted and the write
    succeeded; it closes the stream when the store refused and does not
    close it when it hands it to a process; and it leaves the table and
    the addresses as they are. *)
Theorem pairHandler_one_control_byte {M} `{Metrics M} {SS} `{StreamStore SS}
    (c : client M SS) (stream : Stream) (sent : option error) :
  let added := (store_Add (streamstore c) (RemotePeer stream) stream false).2 in
  let c' := pairHandler sent stream c in
  writes c' = writes c ++ [mkWrite stream [if added then ack else nak] sent] ∧
  table c' = table c ∧ addrs c' = addrs c ∧
  processes c'
  = (if added && bool_decide (sent = None) then processes c ++ [stream]
     else processes c) ∧
  (added = false → closes c' = closes c ++ [stream]) ∧
  (added = true → sent = None → closes c' = closes c).
Proof.
  cbv zeta. unfold pairHandler; cbv zeta.
  destruct (store_Add (streamstore c) (RemotePeer stream) stream false)
    as [s added].
  destruct added, sent; done.
Qed.

(** X30: the two ends of a handshake in which the control byte of the
    responder arrives: the initiator answers true exactly when both stream
    stores accept; a responder that accepted has started its process
    whatever the initiator then does; when the responder refused, both
    ends close their stream and the store of the initiator is not
    asked. *)
Theorem pairing_agreement {M} `{Metrics M} {SS} `{StreamStore SS}
    (ci ci' cr : client M SS) (si sr : Stream) (w : write) (peerId : PeerID)
    ok err :
  last (writes (pairHandler None sr cr)) = Some w →
  pair (inl si) (inl (write_data w)) peerId ci = Ok (ok, err, ci') →
  let accepted := (store_Add (streamstore cr) (RemotePeer sr) sr false).2 in
  (ok = true ↔
   accepted = true ∧ (store_Add (streamstore ci) peerId si true).2 = true) ∧
  (accepted = true →
   processes (pairHandler None sr cr) = processes cr ++ [sr] ∧
   closes (pairHandler None sr cr) = closes cr) ∧
  (accepted = false →
   ok = false ∧ closes (pairHandler None sr cr) = closes cr ++ [sr] ∧
   closes ci' = closes ci ++ [si] ∧ streamstore ci' = streamstore ci).
Proof.
  cbv zeta. unfold pairHandler; cbv zeta.
  destruct (store_Add (streamstore cr) (RemotePeer sr) sr false)
    as [s added].
  destruct added; simpl; rewrite last_snoc; intros [= <-]; simpl;
    unfold pair; cbv zeta.
  - destruct (store_Add (streamstore ci) peerId si true) as [s' added'].
    destruct added'; intros [= <- <- <-]; simpl;
      repeat split; try done; by intros [? ?].
  - intros [= <- <- <-]; simpl.
    repeat split; try done; by intros [? ?].
Qed.

Lemma pairing_agreement_witness :
  (last (writes (pairHandler None streamB clientB))
   = Some (mkWrite streamB [ack] None) ∧
   pair (inl streamB) (inl (write_data (mkWrite streamB [ack] None))) "b"
     clientB
   = Ok (true, None, go_process streamB
           (set_streamstore {[ "b"%string := (streamB, true) ]} clientB))) ∧
  let accepted :=
    (store_Add (streamstore clientB) (RemotePeer streamB) streamB false).2 in
  (true = true ↔
   accepted = true ∧
   (store_Add (streamstore clientB) "b" streamB true).2 = true) ∧
  (accepted = true →
   processes (pairHandler None streamB clientB)
   = processes clientB ++ [streamB] ∧
   closes (pairHandler None streamB clientB) = closes clientB) ∧
  (accepted = false →
   true = false ∧
   closes (pairHandler None streamB clientB) = closes clientB ++ [streamB] ∧
   closes (go_process streamB
             (set_streamstore {[ "b"%string := (streamB, true) ]} clientB))
   = closes clientB ++ [streamB] ∧
   streamstore (go_process streamB
                  (set_streamstore {[ "b"%string := (streamB, true) ]} clientB))
   = streamstore clientB).
Proof.
  split; [split; vm_compute; reflexivity|].
  apply (pairing_agreement clientB _ clientB streamB streamB
           (mkWrite streamB [ack] None) "b"%string true None);
    vm_compute; reflexivity.
Defined.
